(** * Aurora Member QA: the answer-decision pipeline of [aurora_app/qa.py]
    and the document flattener of [aurora_app/extractors/extractors.py].

    Python values are embedded as follows.
    - [str] is a list of characters.  A character is a code point in
      U+0000..U+00FF, carried by [ascii]; the classes used by [str.strip],
      [str.lower] and the regular expression [\w] are the ones CPython
      gives to these code points.  Code points above U+00FF are outside
      the model.
    - [Set[str]] is [gset str], [dict] is [gmap], lists are lists.
    - a finite float is the rational it denotes ([Q]): the pipeline only
      compares scores with each other and with literals, and stores the
      literal [0.0], so no rounding takes place.  The literals [0.05] and
      [0.15] are the binary64 numbers CPython reads them as, not the
      decimals 1/20 and 3/20.  NaN and the infinities are outside the
      model.
    - the scikit-learn objects are an interface ([TfidfBackend]); their
      arithmetic is not modelled.
    - [self] is an explicit state threaded through a small state/exception
      monad ([Py]). *)

From Stdlib Require Import QArith Ascii DecimalString.
From stdpp Require Import base list strings gmap.

Abbreviation str := (list ascii).

(** String literals: ["User:"] is read as a [string] and coerced. *)
Definition lit (s : string) : str := String.list_ascii_of_string s.
Coercion lit : string >-> list.

(** ** Character classes (CPython, code points below 256) *)

Definition in_range (lo hi : N) (c : ascii) : bool :=
  let n := N_of_ascii c in ((lo <=? n) && (n <=? hi))%N.

(** [str.isspace]: the characters removed by [str.strip()]. *)
Definition is_space (c : ascii) : bool :=
  in_range 9 13 c || in_range 28 32 c || in_range 133 133 c
  || in_range 160 160 c.

(** The characters matched by [\w] in a [str] pattern. *)
Definition is_word (c : ascii) : bool :=
  in_range 48 57 c || in_range 65 90 c || in_range 95 95 c
  || in_range 97 122 c || in_range 170 170 c || in_range 178 179 c
  || in_range 181 181 c || in_range 185 186 c || in_range 188 190 c
  || in_range 192 214 c || in_range 216 246 c || in_range 248 255 c.

Definition lower_char (c : ascii) : ascii :=
  if in_range 65 90 c || in_range 192 214 c || in_range 216 222 c
  then ascii_of_N (N_of_ascii c + 32)
  else c.

(** ** [str] methods used by the sources *)

(** [s.lower()] *)
Definition lower (s : str) : str := lower_char <$> s.

(** [s.startswith(p)] *)
Fixpoint startswith (p s : str) : bool :=
  match p, s with
  | [], _ => true
  | _ :: _, [] => false
  | a :: p', b :: s' => bool_decide (a = b) && startswith p' s'
  end.

(** [p in s] *)
Fixpoint contains (p s : str) : bool :=
  startswith p s ||
  match s with
  | [] => false
  | _ :: s' => contains p s'
  end.

(** [s.find(sep)]; Python's [-1] is [None]. *)
Fixpoint find (sep s : str) : option nat :=
  if startswith sep s then Some 0
  else match s with
       | [] => None
       | _ :: s' => S <$> find sep s'
       end.

Fixpoint dropwhile {A} (f : A → bool) (l : list A) : list A :=
  match l with
  | [] => []
  | x :: l' => if f x then dropwhile f l' else l
  end.

(** [s.lstrip()], [s.rstrip()], [s.strip()] *)
Definition lstrip (s : str) : str := dropwhile is_space s.
Definition rstrip (s : str) : str := reverse (dropwhile is_space (reverse s)).
Definition strip (s : str) : str := lstrip (rstrip s).

(** [s.split(c)] for a one-character separator: never the empty list. *)
Fixpoint split (c : ascii) (s : str) : list str :=
  match s with
  | [] => [[]]
  | x :: s' =>
      if bool_decide (x = c) then [] :: split c s'
      else match split c s' with
           | [] => [[x]]
           | h :: t => (x :: h) :: t
           end
  end.

(** [sep.join(parts)] *)
Fixpoint join (sep : str) (parts : list str) : str :=
  match parts with
  | [] => []
  | [p] => p
  | p :: ps => p ++ sep ++ join sep ps
  end.

(** [re.findall(r"\w+", s)]: the maximal runs of word characters, left to
    right.  [cur] is the run being read, most recent character first. *)
Definition flush (cur : str) : list str :=
  match cur with [] => [] | _ => [reverse cur] end.

Fixpoint findall_go (cur : str) (s : str) : list str :=
  match s with
  | [] => flush cur
  | c :: s' =>
      if is_word c then findall_go (c :: cur) s'
      else flush cur ++ findall_go [] s'
  end.

Definition findall_w (s : str) : list str := findall_go [] s.

(** Truthiness of an [Optional[str]]: [None] and [""] are false. *)
Definition truthy (o : option str) : bool :=
  match o with
  | Some (_ :: _) => true
  | _ => false
  end.

(** [x or None] *)
Definition or_none (s : str) : option str :=
  match s with [] => None | _ => Some s end.

(** ** Comparison of scores *)

#[global] Instance Qlt_dec : RelDecision Qlt.
Proof.
  intros x y. destruct (Qlt_le_dec x y) as [H|H].
  - left. exact H.
  - right. intros H'. exact (Qlt_not_le _ _ H' H).
Defined.

#[global] Instance Qle_dec : RelDecision Qle.
Proof.
  intros x y. destruct (Qlt_le_dec y x) as [H|H].
  - right. intros H'. exact (Qlt_not_le _ _ H H').
  - left. exact H.
Defined.

(** ** The scikit-learn objects

    [TfidfVectorizer(ngram_range=(1, 2), stop_words="english")] and
    [linear_kernel] are library code.  The pipeline needs three things of
    them: the freshly constructed vectorizer, [fit_transform], and the
    score vector of a question against the document matrix.  A call that
    raises is [None]. *)
Class TfidfBackend := {
  Vectorizer : Type;
  Matrix : Type;
  (** [TfidfVectorizer(...)], not yet fitted *)
  unfitted : Vectorizer;
  (** [vectorizer.fit_transform(documents)]: the fitted vectorizer and the
      document matrix *)
  fit_transform : list str → option (Vectorizer * Matrix);
  (** [linear_kernel(vectorizer.transform([question]), doc_matrix).flatten()] *)
  query_scores : Vectorizer → Matrix → str → option (list Q);
}.

(** ** The state of a [QASystem] object *)

Record QASystem `{TfidfBackend} := mkQASystem {
  vectorizer : option Vectorizer;
  doc_matrix : option Matrix;
  documents : list str;
  user_names : list (option str);
  stopwords : gset str;
  topic_groups : list (gset str);
}.

Definition words_set (ws : list string) : gset str := list_to_set (lit <$> ws).

Definition default_stopwords : gset str :=
  words_set
    [ "the"; "a"; "an"; "and"; "or"; "but"; "if"; "then"; "else";
      "is"; "am"; "are"; "was"; "were"; "be"; "been"; "being";
      "to"; "of"; "in"; "on"; "at"; "for"; "with"; "by"; "from";
      "as"; "it"; "this"; "that"; "these"; "those";
      "do"; "does"; "did"; "doing";
      "have"; "has"; "had"; "having";
      "i"; "you"; "he"; "she"; "we"; "they"; "them"; "him"; "her";
      "my"; "your"; "his"; "their"; "our";
      "me"; "us";
      "what"; "when"; "where"; "why"; "how";
      "many"; "much";
      "please"; "can"; "could"; "would"; "should";
      "member"; "user"; "message"; "timestamp"; "id"; "user_id" ].

Definition default_topic_groups : list (gset str) :=
  [ words_set
      [ "car"; "cars"; "vehicle"; "vehicles"; "garage"; "truck"; "suv";
        "sedan" ];
    words_set
      [ "restaurant"; "restaurants"; "dinner"; "lunch"; "brunch";
        "cafe"; "bistro"; "eat"; "food"; "dining"; "table"; "reservation" ];
    words_set
      [ "trip"; "travel"; "flight"; "vacation"; "holiday"; "london";
        "journey" ] ].

(** [QASystem.__init__] *)
Definition init `{TfidfBackend} : QASystem :=
  {| vectorizer := None; doc_matrix := None; documents := [];
     user_names := []; stopwords := default_stopwords;
     topic_groups := default_topic_groups |}.

(** ** Methods run in a state/exception monad over the object *)

Inductive exn := ValueError | IndexError | SklearnError.

Inductive result (A : Type) :=
  | Ok (a : A)
  | Raise (e : exn).
Arguments Ok {A} a.
Arguments Raise {A} e.

Definition Py `{TfidfBackend} (A : Type) : Type :=
  QASystem → result A * QASystem.

#[global] Instance Py_ret `{TfidfBackend} : MRet Py :=
  λ A a s, (Ok a, s).

#[global] Instance Py_bind `{TfidfBackend} : MBind Py :=
  λ A B f m s,
    match m s with
    | (Ok a, s') => f a s'
    | (Raise e, s') => (Raise e, s')
    end.

Definition raise `{TfidfBackend} {A} (e : exn) : Py A :=
  λ s, (Raise e, s).

(** Reading an attribute of [self]. *)
Definition gets `{TfidfBackend} {A} (f : QASystem → A) : Py A :=
  λ s, (Ok (f s), s).

(** A value that may be missing: [e] is raised when it is. *)
Definition or_raise `{TfidfBackend} {A} (e : exn) (o : option A) : Py A :=
  match o with
  | Some a => mret a
  | None => raise e
  end.

(** Assigning an attribute of [self]. *)
Definition set_vectorizer `{TfidfBackend} (v : option Vectorizer) : Py unit :=
  λ s, (Ok (), {| vectorizer := v; doc_matrix := doc_matrix s;
                  documents := documents s; user_names := user_names s;
                  stopwords := stopwords s;
                  topic_groups := topic_groups s |}).

Definition set_doc_matrix `{TfidfBackend} (m : option Matrix) : Py unit :=
  λ s, (Ok (), {| vectorizer := vectorizer s; doc_matrix := m;
                  documents := documents s; user_names := user_names s;
                  stopwords := stopwords s;
                  topic_groups := topic_groups s |}).

Definition set_documents `{TfidfBackend} (d : list str) : Py unit :=
  λ s, (Ok (), {| vectorizer := vectorizer s; doc_matrix := doc_matrix s;
                  documents := d; user_names := user_names s;
                  stopwords := stopwords s;
                  topic_groups := topic_groups s |}).

Definition set_user_names `{TfidfBackend} (u : list (option str)) : Py unit :=
  λ s, (Ok (), {| vectorizer := vectorizer s; doc_matrix := doc_matrix s;
                  documents := documents s; user_names := u;
                  stopwords := stopwords s;
                  topic_groups := topic_groups s |}).

(** A method is read-only when it hands back the object it was given,
    whether it returns or raises. *)
Definition read_only `{TfidfBackend} {A} (m : Py A) : Prop :=
  ∀ s, (m s).2 = s.

(** ** [QASystem]: internal helpers *)

(** [QASystem._extract_user_name] (static) *)
Definition _extract_user_name (doc : str) : option str :=
  let prefix : str := "User:" in
  if negb (startswith prefix doc) then None
  else
    let rest := lstrip (drop (length prefix) doc) in
    let sep : str := " |" in
    let name :=
      match find sep rest with
      | None => strip rest
      | Some end_idx => strip (take end_idx rest)
      end in
    or_none name.

(** One turn of the loop of [_parse_doc_fields] over the parts. *)
Definition parse_part (acc : option str * option str * option str)
    (part : str) : option str * option str * option str :=
  let '(user_name, timestamp, message) := acc in
  if startswith "User:" part then
    (Some (strip (drop (length (lit "User:")) part)), timestamp, message)
  else if startswith "Timestamp:" part then
    (user_name, Some (strip (drop (length (lit "Timestamp:")) part)), message)
  else if startswith "Message:" part then
    (user_name, timestamp, Some (strip (drop (length (lit "Message:")) part)))
  else acc.

(** [QASystem._parse_doc_fields] (static) *)
Definition _parse_doc_fields (doc : str)
    : option str * option str * option str :=
  let parts := strip <$> split "|" doc in
  let '(user_name, timestamp, message) :=
    foldl parse_part (None, None, None) parts in
  (user_name ≫= or_none, timestamp ≫= or_none, message ≫= or_none).

(** [QASystem._tokenize] *)
Definition _tokenize `{TfidfBackend} (text : str) : Py (gset str) :=
  stopwords_ ← gets stopwords;
  let tokens := findall_w (lower text) in
  mret (list_to_set (filter (λ t, t ∉ stopwords_) tokens)).

(** The [for np in name_parts] loop: [discard] on both sets. *)
Definition discard_names (name_parts : list str)
    (sets : gset str * gset str) : gset str * gset str :=
  foldl (λ '(q_tokens, a_tokens) np,
           (q_tokens ∖ {[ np ]}, a_tokens ∖ {[ np ]}))
        sets name_parts.

(** The [for group in self.topic_groups] loop with its early return. *)
Fixpoint group_overlap (groups : list (gset str))
    (q_tokens a_tokens : gset str) : bool :=
  match groups with
  | [] => false
  | group :: groups' =>
      if bool_decide (q_tokens ∩ group ≠ ∅)
         && bool_decide (a_tokens ∩ group ≠ ∅)
      then true
      else group_overlap groups' q_tokens a_tokens
  end.

(** [QASystem._topic_overlap_ok] *)
Definition _topic_overlap_ok `{TfidfBackend}
    (question answer_doc : str) (user_name : option str) : Py bool :=
  q_tokens ← _tokenize question;
  a_tokens ← _tokenize answer_doc;
  let '(q_tokens, a_tokens) :=
    match user_name with
    | Some ((_ :: _) as name) =>
        discard_names (findall_w (lower name)) (q_tokens, a_tokens)
    | _ => (q_tokens, a_tokens)
    end in
  let direct_overlap := q_tokens ∩ a_tokens in
  if bool_decide (direct_overlap ≠ ∅) then mret true
  else
    topic_groups_ ← gets topic_groups;
    mret (group_overlap topic_groups_ q_tokens a_tokens).

(** ** [QASystem.build] *)
Definition build `{TfidfBackend} (docs : list str) : Py unit :=
  set_documents docs;;
  documents_ ← gets documents;
  match documents_ with
  | [] =>
      set_vectorizer None;;
      set_doc_matrix None;;
      set_user_names []
  | _ :: _ =>
      set_user_names (_extract_user_name <$> documents_);;
      set_vectorizer (Some unfitted);;
      fitted ← or_raise SklearnError (fit_transform documents_);
      set_vectorizer (Some fitted.1);;
      set_doc_matrix (Some fitted.2)
  end.

(** ** [QASystem.answer], step 1: candidate documents by member name *)

(** [enumerate(l)] *)
Definition enumerate {A} (l : list A) : list (nat * A) :=
  zip (seq 0 (length l)) l.

(** 1a) the positions whose full name occurs in the question *)
Definition full_match_indices (user_names_ : list (option str))
    (q_lower : str) : list nat :=
  foldl (λ acc '(idx, name),
           match name with
           | Some ((_ :: _) as n) =>
               if contains (lower n) q_lower then acc ++ [idx] else acc
           | _ => acc
           end)
        [] (enumerate user_names_).

(** The tokens of a member name that count: three characters or more. *)
Definition name_tokens (name : str) : gset str :=
  list_to_set (filter (λ t, 3 ≤ length t) (findall_w (lower name))).

(** 1b) [matches_by_full_name]: positions grouped by exact member name *)
Definition matches_by_full_name (user_names_ : list (option str))
    (q_tokens : gset str) : gmap str (list nat) :=
  foldl (λ m '(idx, name),
           match name with
           | Some ((_ :: _) as n) =>
               if bool_decide (name_tokens n ∩ q_tokens ≠ ∅)
               then <[ n := default [] (m !! n) ++ [idx] ]> m
               else m
           | _ => m
           end)
        ∅ (enumerate user_names_).

(** The candidate positions and [restricted_by_name].  [n_docs] is
    [len(self.documents)]. *)
Definition resolve_candidates (user_names_ : list (option str))
    (n_docs : nat) (q_lower : str) (q_tokens : gset str)
    : list nat * bool :=
  match full_match_indices user_names_ q_lower with
  | (_ :: _) as full => (full, true)
  | [] =>
      match map_to_list (matches_by_full_name user_names_ q_tokens) with
      | [(_, only_indices)] => (only_indices, true)
      | _ => (seq 0 n_docs, false)
      end
  end.

(** ** [QASystem.answer], step 2: scores *)

(** Zero the scores of the positions that are not candidates; skipped when
    the candidate list is empty or as long as the corpus. *)
Definition zero_non_candidates (candidate_indices : list nat)
    (n_docs : nat) (scores : list Q) : list Q :=
  if bool_decide (candidate_indices ≠ [])
     && bool_decide (length candidate_indices < n_docs)
  then
    let allowed : gset nat := list_to_set candidate_indices in
    foldl (λ sc i, if bool_decide (i ∉ allowed) then <[ i := 0%Q ]> sc else sc)
          scores (seq 0 (length scores))
  else scores.

(** [scores.argmax()] of numpy: the first position of the maximum; raises
    on an empty array. *)
Fixpoint argmax_go (best_i : nat) (best : Q) (i : nat) (l : list Q) : nat :=
  match l with
  | [] => best_i
  | x :: l' =>
      if bool_decide (best < x)%Q then argmax_go i x (S i) l'
      else argmax_go best_i best (S i) l'
  end.

Definition argmax (l : list Q) : option nat :=
  match l with
  | [] => None
  | x :: l' => Some (argmax_go 0 x 1 l')
  end.

(** The float literals [0.05] and [0.15] by value: the binary64 numbers
    3602879701896397 / 2^56 and 5404319552844595 / 2^55. *)
Definition float_0_05 : Q := 3602879701896397 # 72057594037927936.
Definition float_0_15 : Q := 5404319552844595 # 36028797018963968.

(** [min_score = 0.05 if restricted_by_name else 0.15] *)
Definition min_score (restricted_by_name : bool) : Q :=
  if restricted_by_name then float_0_05 else float_0_15.

(** [best_score <= 0.0 or best_score < min_score] *)
Definition too_weak (best_score : Q) (restricted_by_name : bool) : bool :=
  bool_decide (best_score <= 0)%Q
  || bool_decide (best_score < min_score restricted_by_name)%Q.

(** ** [QASystem.answer], step 4: formatting *)

(** [parts.append(f"<label>{value}")] when [value] is truthy. *)
Definition labelled (label : str) (value : option str) : list str :=
  match value with
  | Some ((_ :: _) as v) => [label ++ v]
  | _ => []
  end.

Definition NO_DATA : str :=
  "I don't have any member messages to answer from yet. Please try again later.".
Definition EMPTY_QUESTION : str := "Question has no meaningful content.".
Definition NOT_AVAILABLE : str :=
  "The information is not available in the member messages.".

(** Which [return] of [answer] is taken.  [Formatted] and [RawFallback]
    carry [best_idx] and the returned text. *)
Inductive outcome :=
  | NotBuilt
  | EmptyQuestion
  | BelowThreshold
  | TopicInconsistent
  | Formatted (best_idx : nat) (text : str)
  | RawFallback (best_idx : nat) (best_doc : str).

(** The string that [answer] returns. *)
Definition outcome_text (o : outcome) : str :=
  match o with
  | NotBuilt => NO_DATA
  | EmptyQuestion => EMPTY_QUESTION
  | BelowThreshold | TopicInconsistent => NOT_AVAILABLE
  | Formatted _ text => text
  | RawFallback _ best_doc => best_doc
  end.

(** Steps 3 and 4 of [QASystem.answer]: the topic check on the best
    document and the formatting of the answer. *)
Definition present `{TfidfBackend} (question : str) (documents_ : list str)
    (best_idx : nat) : Py outcome :=
  best_doc ← or_raise IndexError (documents_ !! best_idx);
  let '(user_name, timestamp, message) := _parse_doc_fields best_doc in
  ok ← _topic_overlap_ok question best_doc user_name;
  if negb ok then mret TopicInconsistent
  else if negb (truthy user_name) && negb (truthy timestamp)
          && negb (truthy message)
  then mret (RawFallback best_idx best_doc)
  else
    let parts :=
      labelled "Member: " user_name
      ++ labelled "Timestamp: " timestamp
      ++ labelled "Message: " message in
    match parts with
    | _ :: _ => mret (Formatted best_idx (join " | " parts))
    | [] => mret (RawFallback best_idx best_doc)
    end.

(** The body of [QASystem.answer], each [return] tagged. *)
Definition answer_path `{TfidfBackend} (question : str) : Py outcome :=
  documents_ ← gets documents;
  vectorizer_ ← gets vectorizer;
  doc_matrix_ ← gets doc_matrix;
  match documents_, vectorizer_, doc_matrix_ with
  | _ :: _, Some vec, Some mat =>
      let question := strip question in
      if bool_decide (question = []) then mret EmptyQuestion
      else
        let q_lower := lower question in
        q_tokens ← _tokenize question;
        user_names_ ← gets user_names;
        let '(candidate_indices, restricted_by_name) :=
          resolve_candidates user_names_ (length documents_)
                             q_lower q_tokens in
        scores ← or_raise SklearnError (query_scores vec mat question);
        let scores :=
          zero_non_candidates candidate_indices (length documents_) scores in
        best_idx ← or_raise ValueError (argmax scores);
        best_score ← or_raise IndexError (scores !! best_idx);
        if too_weak best_score restricted_by_name then mret BelowThreshold
        else present question documents_ best_idx
  | _, _, _ => mret NotBuilt
  end.

(** [QASystem.answer] *)
Definition answer `{TfidfBackend} (question : str) : Py str :=
  o ← answer_path question;
  mret (outcome_text o).

(** ** What a call of [answer] computes on the way

    The same expressions as in [answer_path], as functions of the object. *)

(** The token set [_tokenize] returns on object [s]. *)
Definition tokens_of `{TfidfBackend} (s : QASystem) (text : str) : gset str :=
  list_to_set (filter (λ t, t ∉ stopwords s) (findall_w (lower text))).

(** [(candidate_indices, restricted_by_name)] for a question. *)
Definition name_resolution `{TfidfBackend} (s : QASystem) (question : str)
    : list nat * bool :=
  resolve_candidates (user_names s) (length (documents s))
    (lower (strip question)) (tokens_of s (strip question)).

(** The score vector after the zeroing step. *)
Definition masked_scores `{TfidfBackend} (s : QASystem) (question : str)
    (scores : list Q) : list Q :=
  zero_non_candidates (name_resolution s question).1
    (length (documents s)) scores.

(** The two token sets [_topic_overlap_ok] compares, member-name words
    discarded. *)
Definition reduced_tokens `{TfidfBackend} (s : QASystem)
    (question answer_doc : str) (user_name : option str)
    : gset str * gset str :=
  match user_name with
  | Some ((_ :: _) as name) =>
      discard_names (findall_w (lower name))
        (tokens_of s question, tokens_of s answer_doc)
  | _ => (tokens_of s question, tokens_of s answer_doc)
  end.

(** The Boolean [_topic_overlap_ok] returns on object [s]. *)
Definition topic_ok `{TfidfBackend} (s : QASystem)
    (question answer_doc : str) (user_name : option str) : bool :=
  let '(q_tokens, a_tokens) :=
    reduced_tokens s question answer_doc user_name in
  bool_decide (q_tokens ∩ a_tokens ≠ ∅)
  || group_overlap (topic_groups s) q_tokens a_tokens.

(** ** [extractors.build_documents]

    A raw message is a JSON-like record.  The values the flattener can meet
    are modelled by [None], booleans, integers and strings; a record that
    is a dict carries its fields and its own [str()] form, used when no
    segment can be produced. *)
Inductive value :=
  | VNone
  | VBool (b : bool)
  | VInt (z : Z)
  | VStr (s : str).

(** [str(v)], which is what an f-string writes for [{v}]. *)
Definition py_str (v : value) : str :=
  match v with
  | VNone => "None"
  | VBool true => "True"
  | VBool false => "False"
  | VInt z => lit (NilZero.string_of_int (Z.to_int z))
  | VStr s => s
  end.

Definition value_truthy (v : value) : bool :=
  match v with
  | VNone => false
  | VBool b => b
  | VInt z => negb (z =? 0)%Z
  | VStr s => match s with [] => false | _ => true end
  end.

(** [a or b] *)
Definition or_else (a b : value) : value :=
  if value_truthy a then a else b.

Inductive raw_message :=
  | NotDict (text : str)
  | Dict (fields : gmap str value) (text : str).

(** [msg.get(key)] *)
Definition get (fields : gmap str value) (key : str) : value :=
  default VNone (fields !! key).

(** [if key in msg: parts.append(f"<label>{msg[key]}")] *)
Definition segment (fields : gmap str value) (label key : str) : list str :=
  match fields !! key with
  | Some v => [label ++ py_str v]
  | None => []
  end.

(** The body of the loop of [build_documents]: one document per message. *)
Definition flatten (msg : raw_message) : str :=
  match msg with
  | NotDict text => text
  | Dict fields text =>
      let name :=
        or_else (or_else (get fields "user_name") (get fields "member_name"))
                (get fields "name") in
      let parts :=
        (if value_truthy name then [lit "User: " ++ py_str name] else [])
        ++ segment fields "Timestamp: " "timestamp"
        ++ segment fields "Message: " "message"
        ++ segment fields "id: " "id"
        ++ segment fields "user_id: " "user_id"
        ++ segment fields "member_id: " "member_id" in
      match parts with
      | [] => text
      | _ :: _ => join " | " parts
      end
  end.

Definition build_documents (messages : list raw_message) : list str :=
  flatten <$> messages.

(** ** A small backend to run the pipeline on examples

    The score of a document is a quarter of the number of question words
    that occur in it; fitting fails on an all-blank corpus.  It stands for
    scikit-learn only in examples. *)
Definition overlap_score (question doc : str) : Q :=
  let q_words := remove_dups (findall_w (lower question)) in
  let d_words := findall_w (lower doc) in
  inject_Z (Z.of_nat (length (filter (λ w, w ∈ d_words) q_words))) / 4.

#[local] Instance overlap_backend : TfidfBackend := {|
  Vectorizer := bool;
  Matrix := list str;
  unfitted := false;
  fit_transform docs :=
    if bool_decide (Forall (λ d, findall_w d = []) docs) then None
    else Some (true, docs);
  query_scores vec mat question :=
    if vec then Some (overlap_score question <$> mat) else None;
|}.

(** A backend that answers every question with the same score vector, to
    put a chosen score under the threshold test. *)
Definition fixed_backend (table : list Q) : TfidfBackend := {|
  Vectorizer := unit;
  Matrix := unit;
  unfitted := ();
  fit_transform _ := Some ((), ());
  query_scores _ _ _ := Some table;
|}.

(** ** Example corpora *)

Definition bistro_doc : str :=
  "User: Alice | Timestamp: 2024-01-01 | Message: I booked dinner at the new bistro downtown".

Definition vehicle_doc : str :=
  "User: Alice | Timestamp: 2024-01-01 | Message: my vehicle is red".

Definition bob_doc : str :=
  "User: Bob | Timestamp: 2024-01-02 | Message: dinner with Alice was great".

(** The object after [build(docs)] on a fresh [QASystem]. *)
Definition built `{TfidfBackend} (docs : list str) : QASystem :=
  (build docs init).2.

(** ** Vocabulary for the segment of a document *)

(** [seg] is the text of [s] up to the first occurrence of [sep], or all of
    [s] when [sep] does not occur. *)
Definition up_to_first (sep s seg : str) : Prop :=
  (∃ post, s = seg ++ sep ++ post ∧
           ∀ pre' post', s = pre' ++ sep ++ post' → length seg ≤ length pre')
  ∨ (seg = s ∧ ∀ pre post, s ≠ pre ++ sep ++ post).

(** ** Vocabulary for the name resolver *)

(** A list as an optional value: [None] when empty. *)
Definition or_nil {A} (l : list A) : option (list A) :=
  match l with [] => None | _ => Some l end.

(** Position [i] carries a non-empty member name that occurs, lowercased,
    in [q_lower]. *)
Definition full_match_at (names : list (option str)) (q_lower : str)
    (i : nat) : bool :=
  match names !! i with
  | Some (Some ((_ :: _) as n)) => contains (lower n) q_lower
  | _ => false
  end.

(** Position [i] carries a non-empty member name one of whose tokens of
    three characters or more is a token of the question. *)
Definition token_match_at (names : list (option str)) (q_tokens : gset str)
    (i : nat) : bool :=
  match names !! i with
  | Some (Some ((_ :: _) as n)) => bool_decide (name_tokens n ∩ q_tokens ≠ ∅)
  | _ => false
  end.

(** The positions that carry exactly the member name [n]. *)
Definition positions_of (names : list (option str)) (n : str) : list nat :=
  filter (λ i, names !! i = Some (Some n)) (seq 0 (length names)).

(** The distinct member names found at the given positions. *)
Definition names_at (names : list (option str)) (positions : list nat)
    : gset str :=
  list_to_set (omap (λ i, mjoin (names !! i)) positions).

(** ** [main.py]: start-up and the two question endpoints

    The application holds one [QASystem]; the handlers run on it.  What
    FastAPI does with a handler is kept to the response it produces: the
    answer, the 400 that [ask] raises, or the 422 with which the framework
    turns away a query parameter shorter than [min_length]. *)
Inductive response :=
  | QAResponse (answer_text : str)
  | BadRequest (detail : str)
  | Unprocessable.

(** [try: ... except Exception: logger.exception(...)] *)
Definition swallow `{TfidfBackend} (m : Py unit) : Py unit :=
  λ s, match m s with
       | (Raise _, s') => (Ok (), s')
       | r => r
       end.

(** The outcome of a call made outside the object. *)
Definition outcome_of `{TfidfBackend} {A} (r : result A) : Py A :=
  λ s, (r, s).

(** [startup_event].  [fetch] is the outcome of
    [await messages_client.get_messages()]. *)
Definition startup_event `{TfidfBackend}
    (fetch : result (list raw_message)) : Py unit :=
  swallow (messages ← outcome_of fetch;
           let docs := build_documents messages in
           build docs).

(** [POST /ask] *)
Definition ask `{TfidfBackend} (payload_question : str) : Py response :=
  let question := strip payload_question in
  if bool_decide (question = [])
  then mret (BadRequest "Question must not be empty")
  else
    answer_text ← answer question;
    mret (QAResponse answer_text).

(** [GET /ask], with [question: str = Query(..., min_length=1)] *)
Definition ask_get `{TfidfBackend} (question : str) : Py response :=
  if bool_decide (length question < 1) then mret Unprocessable
  else
    answer_text ← answer question;
    mret (QAResponse answer_text).

(** ** [services/messages.py]: the shape of the payload

    A decoded JSON payload is a scalar, a list or a dict whose entries keep
    their order.  The HTTP exchange is reduced to its outcome. *)
#[local] Unset Elimination Schemes.
Inductive json :=
  | JScalar (v : value)
  | JList (items : list json)
  | JDict (entries : list (str * json)).
#[local] Set Elimination Schemes.

Inductive http_outcome :=
  (** [client.get] raised [httpx.HTTPError] *)
  | HTTPError
  (** a response; [body] is [resp.json()], [None] when it raises
      [ValueError] *)
  | Response (status_code : Z) (body : option json).

(** The loop over [payload.values()] with its [break]: the first value
    that is a list. *)
Fixpoint first_list (values : list json) : option (list json) :=
  match values with
  | [] => None
  | JList items :: _ => Some items
  | _ :: values' => first_list values'
  end.

(** [items], as the three branches on the type of the payload set it. *)
Definition payload_items (payload : json) : list json :=
  match payload with
  | JList items => items
  | JDict entries =>
      match first_list entries.*2 with
      | Some items => items
      | None => [payload]
      end
  | JScalar _ => [payload]
  end.

(** The loop that fills [normalized]. *)
Definition normalize (items : list json) : list json :=
  (λ item, match item with
           | JDict _ => item
           | _ => JDict [(lit "_value", item)]
           end) <$> items.

(** [AuroraMessagesClient.get_messages] as far as the source goes: the
    three early [return []] and, past them, the list [normalized]. *)
Inductive fetch_result :=
  | Returned (messages : list json)
  | Normalized (normalized : list json).

Definition get_messages (outcome : http_outcome) : fetch_result :=
  match outcome with
  | HTTPError => Returned []
  | Response status_code body =>
      if negb ((200 <=? status_code)%Z && (status_code <? 300)%Z)
      then Returned []
      else match body with
           | None => Returned []
           | Some payload => Normalized (normalize (payload_items payload))
           end
  end.

(** The messages on either path. *)
Definition fetched_messages (f : fetch_result) : list json :=
  match f with
  | Returned messages => messages
  | Normalized normalized => normalized
  end.

Definition is_dict (j : json) : bool :=
  match j with JDict _ => true | _ => false end.

(** * Properties *)

(** ** The monad: running a method and read-only methods *)

Section py_monad.
Context `{TfidfBackend}.

Lemma run_bind {A B} (m : Py A) (f : A → Py B) (s : QASystem) :
  (m ≫= f) s =
  match m s with
  | (Ok a, s') => f a s'
  | (Raise e, s') => (Raise e, s')
  end.
Proof. reflexivity. Qed.

Lemma run_bind_ok {A B} (m : Py A) (f : A → Py B) s a s' :
  m s = (Ok a, s') → (m ≫= f) s = f a s'.
Proof. intros Hm. rewrite run_bind, Hm. reflexivity. Qed.

Lemma read_only_ret {A} (a : A) : read_only (mret a).
Proof. intros s. reflexivity. Qed.

Lemma read_only_raise {A} (e : exn) : read_only (raise (A:=A) e).
Proof. intros s. reflexivity. Qed.

Lemma read_only_gets {A} (f : QASystem → A) : read_only (gets f).
Proof. intros s. reflexivity. Qed.

Lemma read_only_or_raise {A} e (o : option A) : read_only (or_raise e o).
Proof. destruct o; [apply read_only_ret | apply read_only_raise]. Qed.

Lemma read_only_bind {A B} (m : Py A) (f : A → Py B) :
  read_only m → (∀ a, read_only (f a)) → read_only (m ≫= f).
Proof.
  intros Hm Hf s. rewrite run_bind.
  specialize (Hm s). destruct (m s) as [[a|e] s']; simpl in Hm; subst s'.
  - apply Hf.
  - reflexivity.
Qed.

Lemma read_only_tokenize text : read_only (_tokenize text).
Proof.
  apply read_only_bind; [apply read_only_gets|].
  intros sw. apply read_only_ret.
Qed.

Lemma read_only_topic_overlap_ok q d u : read_only (_topic_overlap_ok q d u).
Proof.
  apply read_only_bind; [apply read_only_tokenize|]. intros qt.
  apply read_only_bind; [apply read_only_tokenize|]. intros at_.
  destruct (match u with
            | Some ((_ :: _) as name) =>
                discard_names (findall_w (lower name)) (qt, at_)
            | _ => (qt, at_)
            end) as [q' a'].
  cbv zeta. case_bool_decide; [apply read_only_ret|].
  apply read_only_bind; [apply read_only_gets|].
  intros g. apply read_only_ret.
Qed.

Lemma read_only_present q docs i : read_only (present q docs i).
Proof.
  apply read_only_bind; [apply read_only_or_raise|]. intros best_doc.
  destruct (_parse_doc_fields best_doc) as [[u t] m].
  apply read_only_bind; [apply read_only_topic_overlap_ok|]. intros ok.
  destruct (negb ok); [apply read_only_ret|].
  destruct (_ && _); [apply read_only_ret|].
  destruct (_ ++ _); apply read_only_ret.
Qed.

Lemma read_only_answer_path q : read_only (answer_path q).
Proof.
  unfold answer_path.
  apply read_only_bind; [apply read_only_gets|]. intros docs.
  apply read_only_bind; [apply read_only_gets|]. intros vec.
  apply read_only_bind; [apply read_only_gets|]. intros mat.
  destruct docs as [|d docs]; [apply read_only_ret|].
  destruct vec as [vec|]; [|apply read_only_ret].
  destruct mat as [mat|]; [|apply read_only_ret].
  cbv zeta. case_bool_decide; [apply read_only_ret|].
  apply read_only_bind; [apply read_only_tokenize|]. intros qt.
  apply read_only_bind; [apply read_only_gets|]. intros names.
  destruct (resolve_candidates _ _ _ _) as [cand restricted].
  apply read_only_bind; [apply read_only_or_raise|]. intros scores.
  apply read_only_bind; [apply read_only_or_raise|]. intros best_idx.
  apply read_only_bind; [apply read_only_or_raise|]. intros best_score.
  destruct (too_weak _ _); [apply read_only_ret|].
  apply read_only_present.
Qed.

Lemma read_only_answer q : read_only (answer q).
Proof.
  apply read_only_bind; [apply read_only_answer_path|].
  intros o. apply read_only_ret.
Qed.

(** A read-only method is known by its result. *)
Lemma read_only_result {A} (m : Py A) (s : QASystem) (r : result A) :
  read_only m → (m s).1 = r → m s = (r, s).
Proof.
  intros Hm <-. rewrite (surjective_pairing (m s)) at 1.
  f_equal. apply Hm.
Qed.
End py_monad.

(** ** Whitespace *)

Lemma dropwhile_all {A} (f : A → bool) (l : list A) :
  Forall f l → dropwhile f l = [].
Proof.
  induction 1 as [|x l Hx _ IH]; simpl; [reflexivity|].
  destruct (f x); [exact IH | contradiction].
Qed.

Lemma strip_blank (q : str) : Forall is_space q → strip q = [].
Proof.
  intros Hq. unfold strip, rstrip.
  rewrite dropwhile_all; [reflexivity|].
  apply Forall_reverse. exact Hq.
Qed.

(** ** The fixed refusals *)

(** C5: after [build] on the empty document list, [answer] returns the
    "no data" message for every question, the empty and the blank ones
    included: the not-built test comes first. *)
Theorem answer_after_empty_build `{TfidfBackend} (s : QASystem) (q : str) :
  (build [] s).1 = Ok () ∧
  documents (build [] s).2 = [] ∧
  answer q (build [] s).2 = (Ok NO_DATA, (build [] s).2) ∧
  answer [] (build [] s).2 = (Ok NO_DATA, (build [] s).2).
Proof. repeat split. Qed.

(** C6: on a non-empty corpus with a built index, a question that is empty
    or made of whitespace only gets the "empty question" message. *)
Theorem answer_blank_question `{TfidfBackend} (s : QASystem) (q : str) :
  documents s ≠ [] →
  is_Some (vectorizer s) →
  is_Some (doc_matrix s) →
  Forall is_space q →
  answer q s = (Ok EMPTY_QUESTION, s).
Proof.
  intros Hdocs [vec Hvec] [mat Hmat] Hq.
  unfold answer, answer_path.
  unfold mbind, Py_bind, gets. simpl. rewrite Hvec, Hmat.
  destruct (documents s) as [|d docs]; [done|].
  rewrite (strip_blank q Hq). reflexivity.
Qed.

Lemma answer_blank_question_witness :
  let s := (build [lit "User: Alice | Message: I booked dinner"] init).2 in
  documents s ≠ [] ∧ answer "   " s = (Ok EMPTY_QUESTION, s).
Proof.
  split; [done|].
  apply answer_blank_question.
  - done.
  - by eexists.
  - by eexists.
  - by repeat constructor.
Defined.

(** ** Frame *)

(** C10: [answer] does not change the object: documents, member names,
    vectorizer and document matrix are the same after the call as before,
    so asking the same question again gives the same string. *)
Theorem answer_no_mutation `{TfidfBackend} (q : str) (s : QASystem) :
  let s' := (answer q s).2 in
  documents s' = documents s ∧
  user_names s' = user_names s ∧
  vectorizer s' = vectorizer s ∧
  doc_matrix s' = doc_matrix s ∧
  s' = s ∧
  (answer q s').1 = (answer q s).1.
Proof.
  intros s'. assert (Hs : s' = s) by apply read_only_answer.
  rewrite Hs. repeat split.
Qed.

(** [build], by contrast, does assign the attributes. *)
Example build_mutates :
  documents (build [lit "User: Alice | Message: hello"] init).2
  ≠ documents init.
Proof. done. Qed.

(** ** Running [answer] *)

Section running.
Context `{TfidfBackend}.

Lemma run_tokenize text s : _tokenize text s = (Ok (tokens_of s text), s).
Proof. reflexivity. Qed.

Lemma run_topic_overlap_ok q d u s :
  _topic_overlap_ok q d u s = (Ok (topic_ok s q d u), s).
Proof.
  unfold _topic_overlap_ok, topic_ok, reduced_tokens.
  unfold mbind, Py_bind. rewrite !run_tokenize.
  destruct (match u with
            | Some ((_ :: _) as name) =>
                discard_names (findall_w (lower name))
                  (tokens_of s q, tokens_of s d)
            | _ => (tokens_of s q, tokens_of s d)
            end) as [q' a'].
  cbv zeta. case_bool_decide; reflexivity.
Qed.

(** Up to the threshold test, on an object whose index is there. *)
Lemma answer_path_selected s q vec mat scores best_idx best_score :
  documents s ≠ [] →
  vectorizer s = Some vec →
  doc_matrix s = Some mat →
  strip q ≠ [] →
  query_scores vec mat (strip q) = Some scores →
  argmax (masked_scores s q scores) = Some best_idx →
  masked_scores s q scores !! best_idx = Some best_score →
  answer_path q s =
    if too_weak best_score (name_resolution s q).2
    then (Ok BelowThreshold, s)
    else present (strip q) (documents s) best_idx s.
Proof.
  intros Hdocs Hvec Hmat Hq Hscores Hbest Hscore.
  unfold masked_scores, name_resolution in *.
  unfold answer_path, mbind, Py_bind, gets. simpl.
  rewrite Hvec, Hmat.
  destruct (documents s) as [|d docs] eqn:Hd; [done|].
  rewrite bool_decide_eq_false_2 by done.
  change (list_to_set (filter (λ t, t ∉ stopwords s)
                         (findall_w (lower (strip q)))))
    with (tokens_of s (strip q)).
  destruct (resolve_candidates _ _ _ _) as [cand restricted].
  rewrite Hscores. simpl in *. rewrite Hbest. simpl. rewrite Hscore. simpl.
  destruct (too_weak _ _); reflexivity.
Qed.

(** The last two steps return only the topic refusal or an answer that
    carries [best_idx]. *)
Lemma present_outcome q docs i s o s' :
  present q docs i s = (Ok o, s') →
  s' = s ∧ ∃ best_doc,
    docs !! i = Some best_doc ∧
    let '(u, t, m) := _parse_doc_fields best_doc in
    if topic_ok s q best_doc u
    then o = RawFallback i best_doc
         ∨ o = Formatted i (join " | " (labelled "Member: " u
                                       ++ labelled "Timestamp: " t
                                       ++ labelled "Message: " m))
    else o = TopicInconsistent.
Proof.
  unfold present, mbind, Py_bind.
  destruct (docs !! i) as [best_doc|]; simpl; [|done].
  destruct (_parse_doc_fields best_doc) as [[u t] m] eqn:Hp.
  rewrite run_topic_overlap_ok.
  intros Hrun. assert (s' = s ∧
    if topic_ok s q best_doc u
    then o = RawFallback i best_doc
         ∨ o = Formatted i (join " | " (labelled "Member: " u
                                       ++ labelled "Timestamp: " t
                                       ++ labelled "Message: " m))
    else o = TopicInconsistent) as [-> Ho].
  { unfold mret, Py_ret in Hrun.
    destruct (topic_ok s q best_doc u); simpl in Hrun.
    - destruct (_ && _); [simplify_eq; auto|].
      destruct (_ ++ _) eqn:Hparts; simplify_eq; auto.
    - simplify_eq. done. }
  split; [done|]. exists best_doc. rewrite Hp. done.
Qed.
End running.

(** ** The threshold test *)

Lemma present_not_below `{TfidfBackend} q docs i s :
  (present q docs i s).1 ≠ Ok BelowThreshold.
Proof.
  destruct (present q docs i s) as [[o|e] s'] eqn:Hrun; [|done].
  apply present_outcome in Hrun as (_ & best_doc & _ & Ho).
  destruct (_parse_doc_fields best_doc) as [[u t] m].
  simpl. intros [= ->].
  destruct (topic_ok _ _ _ _); [destruct Ho|]; done.
Qed.

Lemma too_weak_spec (best_score : Q) (restricted : bool) :
  too_weak best_score restricted = true ↔
  (best_score <= 0 ∨ best_score < min_score restricted)%Q.
Proof.
  unfold too_weak. rewrite orb_true_iff, !bool_decide_eq_true. done.
Qed.

(** C3: the required minimum is the float 0.05 under a confident name
    restriction and the float 0.15 otherwise; a best score that is not
    positive or is below the minimum gives the "information not available"
    message, and any other best score goes on to the topic check -- in
    particular a best score equal to the float 0.05 under a confident
    restriction. *)
Theorem threshold_test `{TfidfBackend} (s : QASystem) (q : str)
    vec mat scores best_idx best_score :
  documents s ≠ [] →
  vectorizer s = Some vec →
  doc_matrix s = Some mat →
  strip q ≠ [] →
  query_scores vec mat (strip q) = Some scores →
  argmax (masked_scores s q scores) = Some best_idx →
  masked_scores s q scores !! best_idx = Some best_score →
  let confident := (name_resolution s q).2 in
  min_score confident = (if confident then float_0_05 else float_0_15) ∧
  ((best_score <= 0 ∨ best_score < min_score confident)%Q →
   answer_path q s = (Ok BelowThreshold, s) ∧
   answer q s = (Ok NOT_AVAILABLE, s)) ∧
  (¬ (best_score <= 0 ∨ best_score < min_score confident)%Q →
   answer_path q s = present (strip q) (documents s) best_idx s ∧
   (answer_path q s).1 ≠ Ok BelowThreshold) ∧
  (confident = true → (best_score == float_0_05)%Q →
   answer_path q s = present (strip q) (documents s) best_idx s ∧
   (answer_path q s).1 ≠ Ok BelowThreshold).
Proof.
  intros Hdocs Hvec Hmat Hq Hscores Hbest Hscore confident.
  pose proof (answer_path_selected s q vec mat scores best_idx best_score
                Hdocs Hvec Hmat Hq Hscores Hbest Hscore) as Hrun.
  fold confident in Hrun.
  assert (Hpass : ¬ (best_score <= 0 ∨ best_score < min_score confident)%Q →
    answer_path q s = present (strip q) (documents s) best_idx s ∧
    (answer_path q s).1 ≠ Ok BelowThreshold).
  { intros Hno. apply (not_iff_compat (too_weak_spec _ _)) in Hno.
    apply not_true_is_false in Hno. rewrite Hno in Hrun.
    split; [exact Hrun|]. rewrite Hrun. apply present_not_below. }
  split; [reflexivity|]. split; [|split; [exact Hpass|]].
  - intros Hweak. apply too_weak_spec in Hweak. rewrite Hweak in Hrun.
    split; [exact Hrun|].
    unfold answer, mbind, Py_bind. rewrite Hrun. reflexivity.
  - intros Hconf Heq. apply Hpass. rewrite Hconf. simpl.
    rewrite Heq. intros [Hle|Hlt]; [by apply Qle_not_lt in Hle|].
    by apply Qlt_irrefl in Hlt.
Qed.

Lemma threshold_test_witness :
  let s := built (H:=fixed_backend [float_0_05]) [bistro_doc] in
  let q : str := "Where did Alice have dinner?" in
  (name_resolution s q).2 = true ∧
  answer q s =
    (Ok (lit "Member: Alice | Timestamp: 2024-01-01 | Message: I booked dinner at the new bistro downtown"), s).
Proof.
  intros s q. split; [by vm_compute|].
  destruct (threshold_test (H:=fixed_backend [float_0_05]) s q () ()
              [float_0_05] 0 float_0_05) as (_ & _ & _ & Hpass);
    [by vm_compute..|].
  destruct Hpass as [Hrun _]; [by vm_compute | reflexivity |].
  apply read_only_result; [apply read_only_answer|].
  unfold answer, mbind, Py_bind. rewrite Hrun. vm_compute. reflexivity.
Defined.

(** The two literals against the decimals they are written as. *)
Example float_literals :
  (1 # 20 < float_0_05)%Q ∧ (float_0_15 < 3 # 20)%Q.
Proof. split; reflexivity. Qed.

(** The same corpus and question just below the minimum (the decimal 1/20
    is below the float 0.05), and the float 0.05 without a member name in
    the question; a best score equal to the float 0.15 is then enough. *)
Example below_confident_minimum :
  let s := built (H:=fixed_backend [1 # 20]) [bistro_doc] in
  (answer "Where did Alice have dinner?" s).1 = Ok NOT_AVAILABLE.
Proof. by vm_compute. Qed.

Example unconfident_needs_more :
  let s := built (H:=fixed_backend [float_0_05]) [bistro_doc] in
  (name_resolution s "Where was dinner booked?").2 = false ∧
  (answer "Where was dinner booked?" s).1 = Ok NOT_AVAILABLE ∧
  (answer "Where was dinner booked?"
     (built (H:=fixed_backend [float_0_15]) [bistro_doc])).1
  = Ok (lit "Member: Alice | Timestamp: 2024-01-01 | Message: I booked dinner at the new bistro downtown").
Proof. by vm_compute. Qed.

(** ** Prefixes and substrings *)

Lemma startswith_spec (p s : str) :
  startswith p s = true ↔ ∃ t, s = p ++ t.
Proof.
  revert s. induction p as [|a p IH]; intros s; simpl.
  - split; [eauto|done].
  - destruct s as [|b s].
    + split; [done|]. by intros [t Ht].
    + rewrite andb_true_iff, bool_decide_eq_true, IH. split.
      * intros [-> [t ->]]. eauto.
      * intros [t [= -> ->]]. eauto.
Qed.

Lemma startswith_app (p t : str) : startswith p (p ++ t) = true.
Proof. apply startswith_spec. eauto. Qed.

(** [contains p s] is "[p] is a substring of [s]". *)
Lemma contains_spec (p s : str) :
  contains p s = true ↔ ∃ pre post, s = pre ++ p ++ post.
Proof.
  induction s as [|c s IH]; simpl.
  - rewrite orb_false_r, startswith_spec. split.
    + intros [t Ht]. exists [], t. done.
    + intros (pre & post & Hs). symmetry in Hs.
      apply app_eq_nil in Hs as [-> Hs]. eauto.
  - rewrite orb_true_iff, startswith_spec, IH. split.
    + intros [[t Ht]|(pre & post & ->)].
      * exists [], t. done.
      * exists (c :: pre), post. done.
    + intros ([|c' pre] & post & Hs); simpl in Hs.
      * left. eauto.
      * right. injection Hs as -> ->. eauto.
Qed.

(** ** The name resolver *)

Lemma enumerate_snoc {A} (l : list A) (x : A) :
  enumerate (l ++ [x]) = enumerate l ++ [(length l, x)].
Proof.
  unfold enumerate. rewrite length_app, seq_app. simpl.
  rewrite zip_with_app by (by rewrite length_seq). done.
Qed.

Lemma full_match_at_snoc_lt names x q i :
  i < length names →
  full_match_at (names ++ [x]) q i = full_match_at names q i.
Proof. intros Hi. unfold full_match_at. by rewrite lookup_app_l. Qed.

Lemma filter_ext_in {A} (P Q : A → Prop) `{!∀ x, Decision (P x)}
    `{!∀ x, Decision (Q x)} (l : list A) :
  (∀ x, x ∈ l → P x ↔ Q x) → filter P l = filter Q l.
Proof.
  induction l as [|a l IH]; intros HPQ; [done|].
  rewrite !filter_cons, IH by (intros x Hx; apply HPQ; by right).
  apply decide_ext, HPQ. by left.
Qed.

Lemma filter_seq_ext (P Q : nat → Prop) `{!∀ i, Decision (P i)}
    `{!∀ i, Decision (Q i)} (n : nat) :
  (∀ i, i < n → P i ↔ Q i) → filter P (seq 0 n) = filter Q (seq 0 n).
Proof.
  intros HPQ. apply filter_ext_in.
  intros i Hi%elem_of_seq. apply HPQ. lia.
Qed.

Lemma full_match_indices_filter names q_lower :
  full_match_indices names q_lower
  = filter (λ i, full_match_at names q_lower i) (seq 0 (length names)).
Proof.
  unfold full_match_indices.
  induction names as [|x names IH] using rev_ind; [done|].
  rewrite enumerate_snoc, foldl_app, IH. simpl.
  rewrite length_app, seq_app, filter_app. simpl.
  rewrite (filter_seq_ext (λ i, full_match_at (names ++ [x]) q_lower i)
                          (λ i, full_match_at names q_lower i))
    by (intros i Hi; by rewrite full_match_at_snoc_lt).
  assert (Hx : full_match_at (names ++ [x]) q_lower (length names)
               = match x with
                 | Some ((_ :: _) as n) => contains (lower n) q_lower
                 | _ => false
                 end).
  { unfold full_match_at. by rewrite list_lookup_middle. }
  rewrite filter_cons, filter_nil.
  destruct (decide _) as [Hd|Hd]; rewrite Hx in Hd;
    destruct x as [[|c n]|]; simpl in *; try done;
    try (by rewrite app_nil_r);
    destruct (contains _ _); try done; by rewrite app_nil_r.
Qed.

Lemma positions_of_snoc names x n :
  positions_of (names ++ [x]) n
  = positions_of names n ++ (if decide (x = Some n) then [length names] else []).
Proof.
  unfold positions_of. rewrite length_app, seq_app, filter_app. simpl.
  f_equal.
  - apply filter_seq_ext. intros i Hi. by rewrite lookup_app_l.
  - rewrite filter_cons, filter_nil, list_lookup_middle by done.
    apply decide_ext. split; [by intros [= ->] | by intros ->].
Qed.

(** The entry of [matches_by_full_name] under each key, once the loop has
    run: the positions of a non-empty name with a token in the question. *)
Lemma matches_by_full_name_lookup names q_tokens n :
  matches_by_full_name names q_tokens !! n =
  if bool_decide (n ≠ [] ∧ name_tokens n ∩ q_tokens ≠ ∅)
  then or_nil (positions_of names n)
  else None.
Proof.
  unfold matches_by_full_name.
  induction names as [|x names IH] using rev_ind.
  { simpl. rewrite lookup_empty. by case_bool_decide. }
  rewrite enumerate_snoc, foldl_app. simpl.
  set (m := foldl _ ∅ (enumerate names)) in *.
  rewrite positions_of_snoc.
  destruct x as [[|c n0]|]; cbv beta iota.
  - rewrite IH. destruct (decide (Some [] = Some n)) as [[= <-]|_].
    + rewrite !bool_decide_eq_false_2 by (by intros [? _]). done.
    + by rewrite app_nil_r.
  - destruct (bool_decide (name_tokens (c :: n0) ∩ q_tokens ≠ ∅)) eqn:Hhit.
    + apply bool_decide_eq_true in Hhit.
      destruct (decide (Some (c :: n0) = Some n)) as [[= <-]|Hne].
      * rewrite lookup_insert_eq, IH.
        rewrite bool_decide_eq_true_2 by done.
        destruct (positions_of names (c :: n0)); done.
      * rewrite lookup_insert_ne by congruence.
        by rewrite IH, app_nil_r.
    + apply bool_decide_eq_false in Hhit.
      rewrite IH. destruct (decide (Some (c :: n0) = Some n)) as [[= <-]|_].
      * rewrite !bool_decide_eq_false_2 by (by intros [_ ?]). done.
      * by rewrite app_nil_r.
  - by rewrite IH, app_nil_r.
Qed.

Lemma elem_of_positions_of names n i :
  i ∈ positions_of names n ↔ names !! i = Some (Some n).
Proof.
  unfold positions_of. rewrite list_elem_of_filter, elem_of_seq.
  split; [by intros [? _]|]. intros Hi. split; [done|].
  apply lookup_lt_Some in Hi. lia.
Qed.

Lemma elem_of_names_at names positions n :
  n ∈ names_at names positions ↔
  ∃ i, i ∈ positions ∧ names !! i = Some (Some n).
Proof.
  unfold names_at. rewrite elem_of_list_to_set, list_elem_of_omap.
  split; intros (i & Hi & Hn); exists i; split; try done.
  - destruct (names !! i) as [[n'|]|]; simpl in *; congruence.
  - by rewrite Hn.
Qed.

Lemma token_match_at_spec names q_tokens i :
  token_match_at names q_tokens i = true ↔
  ∃ n, names !! i = Some (Some n) ∧ n ≠ [] ∧ name_tokens n ∩ q_tokens ≠ ∅.
Proof.
  unfold token_match_at. split.
  - destruct (names !! i) as [[[|c n]|]|]; try done.
    intros Hhit%bool_decide_eq_true. eauto.
  - intros (n & -> & Hn & Hhit). destruct n; [done|].
    by apply bool_decide_eq_true.
Qed.

Lemma full_match_at_spec names q_lower i :
  full_match_at names q_lower i = true ↔
  ∃ n, names !! i = Some (Some n) ∧ n ≠ [] ∧
       ∃ pre post, q_lower = pre ++ lower n ++ post.
Proof.
  unfold full_match_at. split.
  - destruct (names !! i) as [[[|c n]|]|]; try done.
    intros Hsub%contains_spec. eauto.
  - intros (n & -> & Hn & Hsub). destruct n; [done|].
    by apply contains_spec.
Qed.

Lemma filter_none {A} (P : A → Prop) `{!∀ x, Decision (P x)} (l : list A) :
  (∀ x, x ∈ l → ¬ P x) → filter P l = [].
Proof.
  induction l as [|a l IH]; intros HP; [done|].
  rewrite filter_cons_False by (apply HP; by left).
  apply IH. intros x Hx. apply HP. by right.
Qed.

(** The keys of [matches_by_full_name] are the distinct member names at
    the token-matching positions. *)
Lemma dom_matches_by_full_name names q_tokens :
  dom (matches_by_full_name names q_tokens)
  = names_at names
      (filter (λ i, token_match_at names q_tokens i) (seq 0 (length names))).
Proof.
  apply set_eq. intros n.
  rewrite elem_of_dom, matches_by_full_name_lookup, elem_of_names_at.
  split.
  - case_bool_decide as Hn; [|by intros [? ?]].
    destruct Hn as [Hne Hhit].
    destruct (positions_of names n) as [|i l] eqn:Hpos; [by intros [? ?]|].
    intros _. assert (Hi : i ∈ positions_of names n) by (rewrite Hpos; by left).
    apply elem_of_positions_of in Hi. exists i. split; [|done].
    apply list_elem_of_filter. split.
    + apply Is_true_true, token_match_at_spec. eauto.
    + apply elem_of_seq. apply lookup_lt_Some in Hi. lia.
  - intros (i & [Hm _]%list_elem_of_filter & Hi).
    apply Is_true_true, token_match_at_spec in Hm as (n' & Hn' & Hne & Hhit).
    assert (n' = n) as -> by congruence.
    rewrite bool_decide_eq_true_2 by done.
    apply elem_of_positions_of in Hi.
    destruct (positions_of names n); [by apply elem_of_nil in Hi|].
    by eexists.
Qed.

(** C2: when some position carries a non-empty member name whose
    lowercased form is a substring of the lowercased question, the
    resolver returns exactly the positions of that kind, in increasing
    order, with [confident = true] -- for every token set, so the token
    fallback plays no part. *)
Theorem full_name_match_wins (names : list (option str)) (n_docs : nat)
    (question : str) (q_tokens : gset str) :
  (∃ i n, names !! i = Some (Some n) ∧ n ≠ [] ∧
          ∃ pre post, lower question = pre ++ lower n ++ post) →
  let positions :=
    filter (λ i, full_match_at names (lower question) i)
           (seq 0 (length names)) in
  resolve_candidates names n_docs (lower question) q_tokens
    = (positions, true) ∧
  (∀ i, i ∈ positions ↔
        ∃ n, names !! i = Some (Some n) ∧ n ≠ [] ∧
             ∃ pre post, lower question = pre ++ lower n ++ post) ∧
  NoDup positions ∧
  (∀ q_tokens', resolve_candidates names n_docs (lower question) q_tokens'
                = resolve_candidates names n_docs (lower question) q_tokens).
Proof.
  intros (i & n & Hi & Hn & Hsub) positions.
  assert (Hmem : ∀ j, j ∈ positions ↔
            ∃ n, names !! j = Some (Some n) ∧ n ≠ [] ∧
                 ∃ pre post, lower question = pre ++ lower n ++ post).
  { intros j. unfold positions.
    rewrite list_elem_of_filter, elem_of_seq, Is_true_true, full_match_at_spec.
    split; [by intros [? _]|]. intros (n' & Hj & Hrest). split; [by eauto|].
    apply lookup_lt_Some in Hj. lia. }
  assert (Hres : ∀ qt, resolve_candidates names n_docs (lower question) qt
                       = (positions, true)).
  { intros qt. unfold resolve_candidates.
    rewrite full_match_indices_filter. fold positions.
    destruct positions as [|j l] eqn:Hpos; [|done].
    exfalso. eapply elem_of_nil, Hmem. eauto. }
  split_and!; [apply Hres | apply Hmem | | ].
  - apply NoDup_filter, NoDup_seq.
  - intros qt. by rewrite !Hres.
Qed.

Lemma full_name_match_wins_witness :
  resolve_candidates
    [Some (lit "Sam Smith"); None; Some (lit "Sam Jones"); Some (lit "Sam Smith")]
    4 (lower "What did Sam Smith tell Jones?")
    (words_set ["sam"; "smith"; "tell"; "jones"])
  = ([0; 3], true).
Proof.
  apply (full_name_match_wins
           [Some (lit "Sam Smith"); None; Some (lit "Sam Jones");
            Some (lit "Sam Smith")]
           4 "What did Sam Smith tell Jones?").
  exists 0, (lit "Sam Smith"). split_and!; [done..|].
  by exists (lit "what did "), (lit " tell jones?").
Defined.

(** C1: in the token fallback (no full-name substring match), when exactly
    one distinct member name groups the token-matching positions the
    resolver returns those positions -- the positions of that name -- with
    [confident = true]; when no name or several names group them it
    returns the whole range with [confident = false]. *)
Theorem token_fallback (names : list (option str)) (n_docs : nat)
    (q_lower : str) (q_tokens : gset str) :
  (∀ i n, names !! i = Some (Some n) → n ≠ [] →
          ¬ ∃ pre post, q_lower = pre ++ lower n ++ post) →
  let matches :=
    filter (λ i, token_match_at names q_tokens i) (seq 0 (length names)) in
  let distinct := names_at names matches in
  (∀ only, distinct = {[ only ]} →
     resolve_candidates names n_docs q_lower q_tokens = (matches, true) ∧
     matches = positions_of names only) ∧
  (size distinct ≠ 1 →
     resolve_candidates names n_docs q_lower q_tokens
     = (seq 0 n_docs, false)).
Proof.
  intros Hnofull matches distinct.
  assert (Hfull : full_match_indices names q_lower = []).
  { rewrite full_match_indices_filter. apply filter_none.
    intros i _ Hi%Is_true_true%full_match_at_spec.
    destruct Hi as (n & Hi & Hn & Hsub). by eapply Hnofull. }
  pose proof (dom_matches_by_full_name names q_tokens) as Hdom.
  fold matches in Hdom. fold distinct in Hdom.
  unfold resolve_candidates. rewrite Hfull.
  set (m := matches_by_full_name names q_tokens) in *.
  split.
  - intros only Honly.
    assert (Hin : only ∈ distinct) by (rewrite Honly; by apply elem_of_singleton).
    assert (Hcond : only ≠ [] ∧ name_tokens only ∩ q_tokens ≠ ∅).
    { apply elem_of_names_at in Hin as (i & [Hm _]%list_elem_of_filter & Hi).
      apply Is_true_true, token_match_at_spec in Hm as (n' & Hn' & Hne & Hhit).
      by assert (n' = only) as -> by congruence. }
    assert (Hm : m = {[ only := positions_of names only ]}).
    { apply map_eq. intros n. destruct (decide (n = only)) as [->|Hne].
      - rewrite lookup_singleton_eq.
        assert (Hsome : is_Some (m !! only)) by (apply elem_of_dom; by rewrite Hdom).
        unfold m in *. rewrite matches_by_full_name_lookup in *.
        rewrite bool_decide_eq_true_2 in * by done.
        destruct (positions_of names only); [by destruct Hsome|done].
      - rewrite lookup_singleton_ne by done.
        apply not_elem_of_dom. rewrite Hdom, Honly.
        by intros ?%elem_of_singleton. }
    rewrite Hm, map_to_list_singleton.
    assert (Hsame : matches = positions_of names only).
    { unfold matches, positions_of. apply filter_seq_ext. intros i Hi. split.
      - intros Ht. pose proof Ht as Ht'.
        apply Is_true_true, token_match_at_spec in Ht' as (n & Hn & _ & _).
        assert (n ∈ distinct) as Hn'.
        { apply elem_of_names_at. exists i. split; [|done].
          apply list_elem_of_filter. split; [done|]. apply elem_of_seq. lia. }
        rewrite Honly in Hn'. apply elem_of_singleton in Hn'. by subst.
      - intros Hn. apply Is_true_true, token_match_at_spec.
        exists only. by destruct Hcond. }
    by rewrite Hsame.
  - intros Hsize.
    assert (Hlen : length (map_to_list m) ≠ 1).
    { rewrite length_map_to_list, <- size_dom, Hdom. done. }
    destruct (map_to_list m) as [|[k v] [|kv l]]; done.
Qed.

Lemma token_fallback_witness :
  let names := [Some (lit "Sam Smith"); None; Some (lit "Sam Jones");
                Some (lit "Sam Smith")] in
  resolve_candidates names 4 (lower "What did Sam say?")
    (words_set ["sam"; "say"]) = ([0; 1; 2; 3], false) ∧
  resolve_candidates names 4 (lower "What did Smith say?")
    (words_set ["smith"; "say"]) = ([0; 3], true).
Proof.
  intros names. split.
  - apply (token_fallback names 4 (lower "What did Sam say?")
             (words_set ["sam"; "say"])).
    + intros i n Hi Hn Hsub%contains_spec. revert Hsub.
      destruct i as [|[|[|[|i]]]]; simpl in Hi; simplify_eq; by vm_compute.
    + by vm_compute.
  - refine (proj1 (proj1 (token_fallback names 4 (lower "What did Smith say?")
                            (words_set ["smith"; "say"]) _)
                     (lit "Sam Smith") _)).
    + intros i n Hi Hn Hsub%contains_spec. revert Hsub.
      destruct i as [|[|[|[|i]]]]; simpl in Hi; simplify_eq; by vm_compute.
    + vm_compute. reflexivity.
Defined.

(** ** The candidate set and the scores *)

(** What [build] leaves behind when it returns on a non-empty list. *)
Lemma build_ok `{TfidfBackend} docs s0 s :
  build docs s0 = (Ok (), s) →
  docs ≠ [] →
  documents s = docs ∧
  user_names s = _extract_user_name <$> docs ∧
  stopwords s = stopwords s0 ∧
  topic_groups s = topic_groups s0 ∧
  ∃ vec mat, fit_transform docs = Some (vec, mat) ∧
             vectorizer s = Some vec ∧ doc_matrix s = Some mat.
Proof.
  intros Hrun Hdocs. destruct docs as [|d docs]; [done|].
  unfold build, mbind, Py_bind, set_documents, gets in Hrun. simpl in Hrun.
  destruct (fit_transform (d :: docs)) as [[vec mat]|]; simpl in Hrun;
    [|done].
  injection Hrun as <-. simpl. eauto 10.
Qed.

Lemma answer_path_unfold `{TfidfBackend} s q vec mat :
  documents s ≠ [] →
  vectorizer s = Some vec →
  doc_matrix s = Some mat →
  strip q ≠ [] →
  answer_path q s =
    match query_scores vec mat (strip q) with
    | None => (Raise SklearnError, s)
    | Some scores =>
        match argmax (masked_scores s q scores) with
        | None => (Raise ValueError, s)
        | Some best_idx =>
            match masked_scores s q scores !! best_idx with
            | None => (Raise IndexError, s)
            | Some best_score =>
                if too_weak best_score (name_resolution s q).2
                then (Ok BelowThreshold, s)
                else present (strip q) (documents s) best_idx s
            end
        end
    end.
Proof.
  intros Hdocs Hvec Hmat Hq.
  unfold masked_scores, name_resolution.
  unfold answer_path, mbind, Py_bind, gets. simpl.
  rewrite Hvec, Hmat.
  destruct (documents s) as [|d docs] eqn:Hd; [done|].
  rewrite bool_decide_eq_false_2 by done.
  change (list_to_set (filter (λ t, t ∉ stopwords s)
                         (findall_w (lower (strip q)))))
    with (tokens_of s (strip q)).
  destruct (resolve_candidates _ _ _ _) as [cand restricted].
  destruct (query_scores vec mat (strip q)) as [scores|]; simpl; [|done].
  destruct (argmax _) as [best_idx|]; simpl; [|done].
  destruct (_ !! best_idx) as [best_score|]; simpl; [|done].
  destruct (too_weak _ _); reflexivity.
Qed.

(** The candidate list is never empty on a non-empty corpus, has no
    repetition, and holds positions of the corpus only. *)
Lemma resolve_candidates_shape names n_docs q_lower q_tokens :
  length names = n_docs →
  0 < n_docs →
  let cand := (resolve_candidates names n_docs q_lower q_tokens).1 in
  cand ≠ [] ∧ NoDup cand ∧ ∀ i, i ∈ cand → i < n_docs.
Proof.
  intros Hlen Hpos. unfold resolve_candidates.
  rewrite full_match_indices_filter.
  destruct (filter _ _) as [|j l] eqn:Hfull.
  - destruct (map_to_list _) as [|[k v] [|kv rest]] eqn:Hm; simpl.
    2:{ assert (Hk : matches_by_full_name names q_tokens !! k = Some v).
        { apply elem_of_map_to_list. rewrite Hm. by left. }
        rewrite matches_by_full_name_lookup in Hk.
        case_bool_decide; [|done].
        assert (v = positions_of names k ∧ v ≠ []) as [-> Hv].
        { destruct (positions_of names k); simpl in Hk; by simplify_eq. }
        split_and!; [done| apply NoDup_filter, NoDup_seq |].
        intros i [_ Hi%elem_of_seq]%list_elem_of_filter. lia. }
    all: split_and!; [destruct n_docs; [lia|done] | apply NoDup_seq |];
      intros i Hi%elem_of_seq; lia.
  - simpl. rewrite <- Hfull. split_and!.
    + by rewrite Hfull.
    + apply NoDup_filter, NoDup_seq.
    + intros i [_ Hi%elem_of_seq]%list_elem_of_filter. lia.
Qed.

(** The zeroing loop after its first [k] turns. *)
Lemma zero_loop_lookup (allowed : gset nat) (scores : list Q) (k i : nat) :
  foldl (λ sc j, if bool_decide (j ∉ allowed) then <[ j := 0%Q ]> sc else sc)
        scores (seq 0 k) !! i
  = if bool_decide (i < k ∧ i ∉ allowed) then (λ _, 0%Q) <$> scores !! i
    else scores !! i.
Proof.
  induction k as [|k IH].
  { rewrite bool_decide_eq_false_2 by lia. done. }
  rewrite seq_S, foldl_app. simpl.
  set (r := foldl _ scores (seq 0 k)) in *.
  assert (Hlen : length r = length scores).
  { unfold r. clear. generalize (seq 0 k). intros l. revert scores.
    induction l as [|j l IHl]; intros scores; simpl; [done|].
    rewrite IHl. case_bool_decide; [apply length_insert|done]. }
  destruct (decide (k ∈ allowed)) as [Hk|Hk].
  - rewrite (bool_decide_eq_false_2 (k ∉ allowed)) by tauto.
    rewrite IH.
    rewrite (bool_decide_ext (i < S k ∧ i ∉ allowed) (i < k ∧ i ∉ allowed));
      [done|].
    split; intros [? ?]; split; try done; try lia.
    destruct (decide (i = k)) as [->|?]; [done|lia].
  - rewrite (bool_decide_eq_true_2 (k ∉ allowed)) by done.
    destruct (decide (i = k)) as [->|Hne].
    + rewrite bool_decide_eq_true_2 by (split; [lia|done]).
      destruct (scores !! k) as [x|] eqn:Hx; simpl.
      * apply list_lookup_insert_eq. rewrite Hlen.
        by eapply lookup_lt_Some.
      * apply lookup_ge_None. rewrite length_insert, Hlen.
        by apply lookup_ge_None.
    + rewrite list_lookup_insert_ne by done.
      rewrite IH.
      rewrite (bool_decide_ext (i < S k ∧ i ∉ allowed) (i < k ∧ i ∉ allowed));
        [done|].
      split; intros [? ?]; split; try done; lia.
Qed.

Lemma zero_non_candidates_outside cand n_docs scores i x :
  cand ≠ [] →
  NoDup cand →
  (∀ j, j ∈ cand → j < n_docs) →
  length scores ≤ n_docs →
  zero_non_candidates cand n_docs scores !! i = Some x →
  i ∉ cand →
  x = 0%Q.
Proof.
  intros Hne Hnd Hbound Hlen Hx Hi. unfold zero_non_candidates in Hx.
  rewrite (bool_decide_eq_true_2 (cand ≠ [])) in Hx by done. simpl in Hx.
  case_bool_decide as Hshort.
  - rewrite zero_loop_lookup in Hx.
    destruct (scores !! i) as [y|] eqn:Hy; [|by case_bool_decide].
    rewrite bool_decide_eq_true_2 in Hx; [by simplify_eq/=|].
    split; [by eapply lookup_lt_Some|]. by rewrite elem_of_list_to_set.
  - exfalso. apply Hi.
    assert (Hperm : cand ≡ₚ seq 0 n_docs).
    { apply submseteq_length_Permutation.
      - apply NoDup_submseteq; [done|]. intros j Hj. apply elem_of_seq.
        specialize (Hbound j Hj). lia.
      - rewrite length_seq. lia. }
    rewrite Hperm. apply elem_of_seq.
    apply lookup_lt_Some in Hx. lia.
Qed.

Lemma zero_non_candidates_inside cand n_docs scores i :
  i ∈ cand →
  zero_non_candidates cand n_docs scores !! i = scores !! i.
Proof.
  intros Hi. unfold zero_non_candidates.
  destruct (_ && _); [|done].
  rewrite zero_loop_lookup, bool_decide_eq_false_2; [done|].
  intros [_ Hout]. apply Hout. by apply elem_of_list_to_set.
Qed.

(** C9: on a corpus built from a non-empty list, once the zeroing step is
    over every score at a position outside the candidate set is zero
    (whether the step ran or was skipped) and the scores of the candidates
    are untouched; so when [answer] returns a formatted answer or the raw
    document, the position of that document is a candidate. *)
Theorem candidate_set_invariant `{TfidfBackend} (s0 s : QASystem)
    (docs : list str) (q : str) vec mat (scores : list Q) :
  build docs s0 = (Ok (), s) →
  docs ≠ [] →
  vectorizer s = Some vec →
  doc_matrix s = Some mat →
  query_scores vec mat (strip q) = Some scores →
  length scores = length docs →
  let candidates := (name_resolution s q).1 in
  (∀ i x, masked_scores s q scores !! i = Some x → i ∉ candidates →
          x = 0%Q) ∧
  (∀ i, i ∈ candidates → masked_scores s q scores !! i = scores !! i) ∧
  (∀ idx text,
     answer_path q s = (Ok (Formatted idx text), s)
     ∨ answer_path q s = (Ok (RawFallback idx text), s) →
     idx ∈ candidates ∧ idx < length docs ∧ answer q s = (Ok text, s)).
Proof.
  intros Hbuild Hdocs Hvec Hmat Hscores Hlen candidates.
  destruct (build_ok docs s0 s Hbuild Hdocs) as (Hd & Hu & _).
  assert (Hshape : candidates ≠ [] ∧ NoDup candidates ∧
                   ∀ i, i ∈ candidates → i < length docs).
  { unfold candidates, name_resolution. rewrite Hd.
    apply resolve_candidates_shape.
    - by rewrite Hu, length_fmap.
    - destruct docs; [done|simpl; lia]. }
  destruct Hshape as (Hne & Hnd & Hbound).
  assert (Hout : ∀ i x, masked_scores s q scores !! i = Some x →
                        i ∉ candidates → x = 0%Q).
  { intros i x. unfold masked_scores. rewrite Hd.
    apply zero_non_candidates_outside; try done. lia. }
  split_and!; [exact Hout | intros i; apply zero_non_candidates_inside |].
  intros idx text Hrun.
  assert (Hdocs' : documents s ≠ []) by by rewrite Hd.
  assert (Hq : strip q ≠ []).
  { intros Hq. unfold answer_path, mbind, Py_bind, gets in Hrun.
    simpl in Hrun. rewrite Hvec, Hmat, Hq in Hrun.
    destruct (documents s); [done|]. simpl in Hrun.
    destruct Hrun as [Hrun|Hrun]; discriminate Hrun. }
  assert (Hans : answer q s = (Ok text, s)).
  { unfold answer, mbind, Py_bind. by destruct Hrun as [-> | ->]. }
  rewrite (answer_path_unfold s q vec mat Hdocs' Hvec Hmat Hq) in Hrun.
  rewrite Hscores in Hrun.
  destruct (argmax _) as [best_idx|]; [|by destruct Hrun].
  destruct (masked_scores s q scores !! best_idx) as [best_score|] eqn:Hbest;
    [|by destruct Hrun].
  destruct (too_weak _ _) eqn:Hweak; [by destruct Hrun|].
  assert (Hidx : best_idx = idx).
  { destruct Hrun as [Hrun|Hrun];
      apply present_outcome in Hrun as (_ & best_doc & _ & Ho);
      destruct (_parse_doc_fields best_doc) as [[u t] m];
      destruct (topic_ok _ _ _ _); try done;
      destruct Ho as [Ho|Ho]; by simplify_eq. }
  subst best_idx.
  assert (Hin : idx ∈ candidates).
  { destruct (decide (idx ∈ candidates)) as [?|Hnot]; [done|].
    rewrite (Hout idx best_score Hbest Hnot) in Hweak. done. }
  split_and!; [done | by apply Hbound | done].
Qed.

Lemma candidate_set_invariant_witness :
  let s := built [bistro_doc; bob_doc] in
  let q : str := "Where did Alice have dinner?" in
  (name_resolution s q).1 = [0] ∧
  masked_scores s q [2 # 4; 2 # 4] = [2 # 4; 0%Q] ∧
  (∀ idx text,
     answer_path q s = (Ok (Formatted idx text), s)
     ∨ answer_path q s = (Ok (RawFallback idx text), s) →
     idx ∈ (name_resolution s q).1).
Proof.
  intros s q. split_and!; [by vm_compute..|].
  intros idx text Hrun.
  destruct (candidate_set_invariant init s [bistro_doc; bob_doc] q
              true [bistro_doc; bob_doc] [2 # 4; 2 # 4]
              eq_refl ltac:(done) eq_refl eq_refl eq_refl eq_refl)
    as (_ & _ & Hpos).
  exact (proj1 (Hpos idx text Hrun)).
Defined.

(** ** The topic consistency filter *)

Lemma discard_names_spec (parts : list str) (q_tokens a_tokens : gset str) :
  discard_names parts (q_tokens, a_tokens)
  = (q_tokens ∖ list_to_set parts, a_tokens ∖ list_to_set parts).
Proof.
  unfold discard_names. revert q_tokens a_tokens.
  induction parts as [|np parts IH]; intros q_tokens a_tokens.
  - by rewrite list_to_set_nil, !difference_empty_L.
  - rewrite list_to_set_cons, <- !difference_difference_l_L. apply IH.
Qed.

Lemma group_overlap_spec (groups : list (gset str)) (q_tokens a_tokens : gset str) :
  group_overlap groups q_tokens a_tokens = true ↔
  ∃ g, g ∈ groups ∧ q_tokens ∩ g ≠ ∅ ∧ a_tokens ∩ g ≠ ∅.
Proof.
  induction groups as [|g groups IH]; simpl.
  - split; [done|]. intros (g & Hg & _). by apply elem_of_nil in Hg.
  - destruct (bool_decide (q_tokens ∩ g ≠ ∅) && bool_decide (a_tokens ∩ g ≠ ∅))
      eqn:Hg.
    + apply andb_true_iff in Hg as [Hq%bool_decide_eq_true Ha%bool_decide_eq_true].
      split; [|done]. intros _. exists g. split; [by left|done].
    + rewrite IH. split.
      * intros (g' & Hg' & Hrest). exists g'. split; [by right|done].
      * intros (g' & Hg' & Hq & Ha).
        apply elem_of_cons in Hg' as [->|Hg']; [|by eauto].
        rewrite !bool_decide_eq_true_2 in Hg by done. done.
Qed.

Lemma topic_ok_spec `{TfidfBackend} s question answer_doc name :
  name ≠ [] →
  let name_words : gset str := list_to_set (findall_w (lower name)) in
  let q_tokens := tokens_of s question ∖ name_words in
  let a_tokens := tokens_of s answer_doc ∖ name_words in
  topic_ok s question answer_doc (Some name) = true ↔
  q_tokens ∩ a_tokens ≠ ∅ ∨
  ∃ g, g ∈ topic_groups s ∧ q_tokens ∩ g ≠ ∅ ∧ a_tokens ∩ g ≠ ∅.
Proof.
  intros Hname name_words q_tokens a_tokens.
  unfold topic_ok, reduced_tokens.
  destruct name as [|c name]; [done|].
  rewrite discard_names_spec.
  rewrite orb_true_iff, bool_decide_eq_true, group_overlap_spec. done.
Qed.

Lemma parsed_name_nonempty doc name :
  (_parse_doc_fields doc).1.1 = Some name → name ≠ [].
Proof.
  unfold _parse_doc_fields.
  destruct (foldl parse_part _ _) as [[u t] m]. simpl.
  destruct u as [[|c u]|]; simpl; [done| |done].
  by intros [= <-].
Qed.

Lemma argmax_go_lt best_i best i l :
  best_i < i → argmax_go best_i best i l < i + length l.
Proof.
  revert best_i best i. induction l as [|x l IH]; intros best_i best i Hi;
    simpl; [lia|].
  case_bool_decide.
  - specialize (IH i x (S i)). lia.
  - specialize (IH best_i best (S i)). lia.
Qed.

Lemma argmax_lt l i : argmax l = Some i → i < length l.
Proof.
  destruct l as [|x l]; [done|]. intros [= <-]. simpl.
  pose proof (argmax_go_lt 0 x 1 l). lia.
Qed.

(** C4 as the code has it: for a question and a winning document from
    which a member name is parsed, the filter removes the words of that
    name from both stopword-filtered token sets and accepts exactly when
    the reduced sets meet or both meet one synonym group.  So a question
    that shares only words of the member's name with the winning document
    gets the "information not available" message unless a synonym group
    links the two. *)
Theorem name_words_do_not_count `{TfidfBackend} (s : QASystem) (q : str)
    vec mat scores best_idx best_doc name :
  vectorizer s = Some vec →
  doc_matrix s = Some mat →
  strip q ≠ [] →
  query_scores vec mat (strip q) = Some scores →
  argmax (masked_scores s q scores) = Some best_idx →
  documents s !! best_idx = Some best_doc →
  (_parse_doc_fields best_doc).1.1 = Some name →
  let name_words : gset str := list_to_set (findall_w (lower name)) in
  let q_tokens := tokens_of s (strip q) ∖ name_words in
  let a_tokens := tokens_of s best_doc ∖ name_words in
  let linked := ∃ g, g ∈ topic_groups s ∧ q_tokens ∩ g ≠ ∅ ∧ a_tokens ∩ g ≠ ∅ in
  (∃ ok, _topic_overlap_ok (strip q) best_doc (Some name) s = (Ok ok, s) ∧
         (ok = true ↔ q_tokens ∩ a_tokens ≠ ∅ ∨ linked)) ∧
  (tokens_of s (strip q) ∩ tokens_of s best_doc ⊆ name_words →
   ¬ linked →
   _topic_overlap_ok (strip q) best_doc (Some name) s = (Ok false, s) ∧
   answer q s = (Ok NOT_AVAILABLE, s)).
Proof.
  intros Hvec Hmat Hq Hscores Hbest Hdoc Hname name_words q_tokens a_tokens
    linked.
  pose proof (parsed_name_nonempty _ _ Hname) as Hne.
  pose proof (topic_ok_spec s (strip q) best_doc name Hne) as Hspec.
  cbv zeta in Hspec. fold name_words q_tokens a_tokens linked in Hspec.
  split.
  { exists (topic_ok s (strip q) best_doc (Some name)).
    split; [apply run_topic_overlap_ok | exact Hspec]. }
  intros Honly Hnolink.
  assert (Hno : topic_ok s (strip q) best_doc (Some name) = false).
  { apply not_true_is_false. rewrite Hspec. intros [Hmeet|Hl]; [|done].
    apply set_choose_L in Hmeet as [x Hx].
    apply elem_of_intersection in Hx as [Hxq Hxa].
    apply elem_of_difference in Hxq as [Hxq Hxn].
    apply elem_of_difference in Hxa as [Hxa _].
    apply Hxn, Honly. by apply elem_of_intersection. }
  split; [by rewrite run_topic_overlap_ok, Hno|].
  assert (Hdocs : documents s ≠ []) by (intros Hd; by rewrite Hd in Hdoc).
  unfold answer, mbind, Py_bind.
  rewrite (answer_path_unfold s q vec mat Hdocs Hvec Hmat Hq), Hscores, Hbest.
  destruct (lookup_lt_is_Some_2 _ _ (argmax_lt _ _ Hbest)) as [best_score ->].
  destruct (too_weak _ _); [done|].
  unfold present, mbind, Py_bind. rewrite Hdoc. simpl.
  destruct (_parse_doc_fields best_doc) as [[u t] m]. simpl in Hname.
  subst u. by rewrite run_topic_overlap_ok, Hno.
Qed.

Lemma name_words_do_not_count_witness :
  let s := built [bistro_doc] in
  let q : str := "What car does Alice drive?" in
  _topic_overlap_ok (strip q) bistro_doc (Some (lit "Alice")) s = (Ok false, s) ∧
  answer q s = (Ok NOT_AVAILABLE, s).
Proof.
  intros s q.
  refine (proj2 (name_words_do_not_count s q true [bistro_doc] [1 # 4] 0
                   bistro_doc (lit "Alice")
                   eq_refl eq_refl _ eq_refl eq_refl eq_refl eq_refl) _ _).
  - by vm_compute.
  - refine (bool_decide_unpack _ _). by vm_compute.
  - intros Hl. apply group_overlap_spec in Hl.
    vm_compute in Hl. discriminate Hl.
Defined.

(** The claim without the synonym-group proviso fails: the question and
    the winning document share the word "alice" and nothing else, the
    member parsed from the document is Alice, and yet the answer is given,
    because "car" and "vehicle" lie in one synonym group. *)
Lemma name_only_overlap_counterexample :
  let s := built [vehicle_doc] in
  let q : str := "What car does Alice drive?" in
  (_parse_doc_fields vehicle_doc).1.1 = Some (lit "Alice") ∧
  list_to_set (findall_w (lower q)) ∩ list_to_set (findall_w (lower vehicle_doc))
    = ({[ lit "alice" ]} : gset str) ∧
  tokens_of s q ∩ tokens_of s vehicle_doc = {[ lit "alice" ]} ∧
  argmax (masked_scores s q [1 # 4]) = Some 0 ∧
  documents s !! 0 = Some vehicle_doc ∧
  _topic_overlap_ok q vehicle_doc (Some (lit "Alice")) s = (Ok true, s) ∧
  answer q s =
    (Ok (lit "Member: Alice | Timestamp: 2024-01-01 | Message: my vehicle is red"), s) ∧
  (answer q s).1 ≠ Ok NOT_AVAILABLE.
Proof.
  intros s q. split_and!.
  - vm_compute. reflexivity.
  - refine (bool_decide_unpack _ _). vm_compute. exact I.
  - refine (bool_decide_unpack _ _). vm_compute. exact I.
  - vm_compute. reflexivity.
  - vm_compute. reflexivity.
  - apply read_only_result; [apply read_only_topic_overlap_ok|].
    vm_compute. reflexivity.
  - apply read_only_result; [apply read_only_answer|].
    vm_compute. reflexivity.
  - vm_compute. intros [=].
Qed.

(** ** The first occurrence of a separator *)

Lemma find_Some (sep s : str) (i : nat) :
  find sep s = Some i →
  ∃ post, s = take i s ++ sep ++ post ∧ length (take i s) = i ∧
          ∀ pre' post', s = pre' ++ sep ++ post' → i ≤ length pre'.
Proof.
  revert i. induction s as [|c s IH]; intros i; simpl.
  - destruct (startswith sep []) eqn:Hs; [|done].
    intros [= <-]. apply startswith_spec in Hs as [post Hs].
    exists post. split_and!; [done|done|]. intros; lia.
  - destruct (startswith sep (c :: s)) eqn:Hs.
    + intros [= <-]. apply startswith_spec in Hs as [post Hs].
      exists post. split_and!; [done|done|]. intros; lia.
    + destruct (find sep s) as [j|] eqn:Hj; [|done].
      intros [= <-]. destruct (IH j eq_refl) as (post & Hpost & Hlen & Hmin).
      exists post. simpl. split_and!; [by f_equal | by f_equal |].
      intros [|c' pre'] post' Hdec.
      * apply not_true_iff_false in Hs. exfalso. apply Hs.
        apply startswith_spec. eauto.
      * injection Hdec as -> Hdec. specialize (Hmin _ _ Hdec). simpl. lia.
Qed.

Lemma find_None (sep s : str) :
  find sep s = None → ∀ pre post, s ≠ pre ++ sep ++ post.
Proof.
  induction s as [|c s IH]; simpl.
  - destruct (startswith sep []) eqn:Hs; [done|]. intros _ pre post Hdec.
    apply not_true_iff_false in Hs. apply Hs, startswith_spec.
    symmetry in Hdec. apply app_eq_nil in Hdec as [-> Hdec]. eauto.
  - destruct (startswith sep (c :: s)) eqn:Hs; [done|].
    destruct (find sep s) as [j|] eqn:Hj; [done|]. intros _ [|c' pre] post Hdec.
    + apply not_true_iff_false in Hs. apply Hs, startswith_spec. eauto.
    + injection Hdec as -> Hdec. by eapply IH.
Qed.

Lemma up_to_first_unique sep s seg seg' :
  up_to_first sep s seg → up_to_first sep s seg' → seg = seg'.
Proof.
  intros [(post & Hs & Hmin)|[-> Hno]] [(post' & Hs' & Hmin')|[-> Hno']].
  - pose proof (Hmin _ _ Hs'). pose proof (Hmin' _ _ Hs).
    rewrite Hs' in Hs. apply app_inj_1 in Hs as [? _]; [done|lia].
  - by apply Hno' in Hs.
  - by apply Hno in Hs'.
  - done.
Qed.

Lemma up_to_first_find sep s :
  up_to_first sep s (match find sep s with
                     | Some end_idx => take end_idx s
                     | None => s
                     end).
Proof.
  destruct (find sep s) as [i|] eqn:Hi.
  - left. destruct (find_Some _ _ _ Hi) as (post & Hs & Hlen & Hmin).
    exists post. split; [done|]. by rewrite Hlen.
  - right. split; [done|]. by apply find_None.
Qed.

(** ** Trimming *)

Lemma dropwhile_app {A} (f : A → bool) (u v : list A) :
  dropwhile f (u ++ v)
  = match dropwhile f u with
    | [] => dropwhile f v
    | w => w ++ v
    end.
Proof.
  induction u as [|x u IH]; simpl; [done|].
  destruct (f x); [exact IH|done].
Qed.

Lemma dropwhile_idemp {A} (f : A → bool) (l : list A) :
  dropwhile f (dropwhile f l) = dropwhile f l.
Proof.
  induction l as [|x l IH]; simpl; [done|].
  destruct (f x) eqn:Hx; [exact IH|]. simpl. by rewrite Hx.
Qed.

Lemma rstrip_idemp (s : str) : rstrip (rstrip s) = rstrip s.
Proof. unfold rstrip. by rewrite reverse_involutive, dropwhile_idemp. Qed.

Lemma strip_rstrip (s : str) : strip (rstrip s) = strip s.
Proof. unfold strip. by rewrite rstrip_idemp. Qed.

Lemma strip_cons_space (c : ascii) (s : str) :
  is_space c = true → strip (c :: s) = strip s.
Proof.
  intros Hc. unfold strip, rstrip, lstrip.
  rewrite reverse_cons, dropwhile_app.
  destruct (dropwhile is_space (reverse s)) as [|x w] eqn:Hw.
  - simpl. by rewrite Hc.
  - rewrite reverse_app. simpl. by rewrite Hc.
Qed.

Lemma strip_snoc_space (s : str) (c : ascii) :
  is_space c = true → strip (s ++ [c]) = strip s.
Proof.
  intros Hc. unfold strip, rstrip.
  rewrite reverse_snoc. simpl. by rewrite Hc.
Qed.

(** A text that begins and ends with a non-blank character keeps its
    place in front of what follows. *)
Lemma strip_after_label (c0 c : ascii) (a' a y : str) :
  c0 :: a' = a ++ [c] →
  is_space c0 = false →
  is_space c = false →
  strip ((c0 :: a') ++ y) = (c0 :: a') ++ rstrip y.
Proof.
  intros Ha Hc0 Hc.
  assert (Hr : rstrip ((c0 :: a') ++ y) = (c0 :: a') ++ rstrip y).
  { rewrite Ha. unfold rstrip.
    rewrite reverse_app, reverse_snoc, dropwhile_app.
    destruct (dropwhile is_space (reverse y)) as [|x w].
    - simpl. rewrite Hc. rewrite reverse_cons, reverse_involutive.
      by rewrite app_nil_r.
    - by rewrite reverse_app, reverse_cons, reverse_involutive. }
  unfold strip. rewrite Hr. unfold lstrip. simpl. by rewrite Hc0.
Qed.

(** What [_parse_doc_fields] reads back from a part ["<label> <v>"]. *)
Lemma strip_labelled_value (label : str) (c0 c : ascii) (a' a v : str) :
  label = c0 :: a' →
  label = a ++ [c] →
  is_space c0 = false →
  is_space c = false →
  strip (label ++ " "%char :: v) = label ++ rstrip (" "%char :: v) ∧
  strip (drop (length label) (strip (label ++ " "%char :: v))) = strip v.
Proof.
  intros -> Ha Hc0 Hc.
  rewrite (strip_after_label c0 c a' a _ Ha Hc0 Hc). split; [done|].
  rewrite drop_app_length, strip_rstrip. by apply strip_cons_space.
Qed.

(** ** Splitting a joined line *)

Lemma split_nonempty (c : ascii) (s : str) : split c s ≠ [].
Proof.
  induction s as [|x s IH]; simpl; [done|].
  case_bool_decide; [done|]. by destruct (split c s).
Qed.

Lemma split_no_sep (c : ascii) (a : str) : c ∉ a → split c a = [a].
Proof.
  induction a as [|x a IH]; intros Hc; simpl; [done|].
  apply not_elem_of_cons in Hc as [Hx Hc].
  rewrite bool_decide_eq_false_2 by done. by rewrite IH.
Qed.

Lemma split_app_sep (c : ascii) (a rest : str) :
  c ∉ a → split c (a ++ c :: rest) = a :: split c rest.
Proof.
  induction a as [|x a IH]; intros Hc; simpl.
  - by rewrite bool_decide_eq_true_2.
  - apply not_elem_of_cons in Hc as [Hx Hc].
    rewrite bool_decide_eq_false_2 by done. by rewrite IH.
Qed.

Lemma strip_split_join (parts : list str) :
  parts ≠ [] →
  Forall (λ p, "|"%char ∉ p) parts →
  strip <$> split "|" (join " | " parts) = strip <$> parts.
Proof.
  induction parts as [|p parts IH]; intros Hne Hbar; [done|].
  apply Forall_cons in Hbar as [Hp Hbar].
  destruct parts as [|p' parts].
  { simpl. by rewrite split_no_sep. }
  change (join " | " (p :: p' :: parts))
    with (p ++ " "%char :: "|"%char :: " "%char :: join " | " (p' :: parts)).
  rewrite (cons_middle " "%char p), app_assoc.
  rewrite split_app_sep.
  2:{ apply not_elem_of_app. split; [done|]. by intros [=]%list_elem_of_singleton. }
  rewrite !fmap_cons, strip_snoc_space by done.
  f_equal. rewrite <- fmap_cons, <- IH by done.
  set (J := join " | " (p' :: parts)).
  simpl.
  pose proof (split_nonempty "|" J).
  destruct (split "|" J) as [|h t]; [done|].
  by rewrite !fmap_cons, strip_cons_space.
Qed.

(** ** Extraction of the member name at build time *)

(** [_extract_user_name] trims on the left before it looks for " |".
    Where the text before the first " |" is not blank, that gives the
    same name as cutting first. *)
Lemma cut_after_lstrip (rest : str) :
  strip (match find " |" rest with
         | Some end_idx => take end_idx rest
         | None => rest
         end) ≠ [] →
  strip (match find " |" (lstrip rest) with
         | Some end_idx => take end_idx (lstrip rest)
         | None => lstrip rest
         end)
  = strip (match find " |" rest with
           | Some end_idx => take end_idx rest
           | None => rest
           end).
Proof.
  induction rest as [|c r IH]; [done|].
  change (lstrip (c :: r)) with (if is_space c then lstrip r else c :: r).
  destruct (is_space c) eqn:Hc; [|done].
  change (find " |" (c :: r))
    with (if startswith " |" (c :: r) then Some 0 else S <$> find " |" r).
  destruct (startswith " |" (c :: r)); [by intros []|].
  destruct (find " |" r) as [i|]; simpl;
    rewrite strip_cons_space by done; exact IH.
Qed.

(** C8 as the code has it by design: a document that does not begin with
    [User:] has no member name, a [User:] segment further inside it
    included.  For a document [User:] ++ [rest], let [seg] be [rest] up to
    its first " |" (a space and a bar), or all of [rest].  Where [seg] is
    not blank, the member name is [seg] trimmed of surrounding whitespace;
    where [rest] is blank altogether, there is none.  Within these cases
    the name is [None] exactly when [rest] is blank.  The remaining case,
    a blank [seg] in front of a separator, is not covered. *)
Theorem extract_user_name_spec (doc : str) :
  (startswith "User:" doc = false → _extract_user_name doc = None) ∧
  (∀ rest seg,
     doc = lit "User:" ++ rest →
     up_to_first " |" rest seg →
     strip seg ≠ [] ∨ Forall is_space rest →
     (strip seg ≠ [] → _extract_user_name doc = Some (strip seg)) ∧
     (_extract_user_name doc = None ↔ Forall is_space rest)).
Proof.
  split.
  { intros Hstart. unfold _extract_user_name. by rewrite Hstart. }
  intros rest seg -> Hseg Hcovered.
  assert (Hcode : _extract_user_name (lit "User:" ++ rest)
            = or_none (strip (match find " |" (lstrip rest) with
                              | Some end_idx => take end_idx (lstrip rest)
                              | None => lstrip rest
                              end))).
  { unfold _extract_user_name.
    rewrite startswith_app. simpl. rewrite ?drop_0.
    by destruct (find _ (lstrip rest)). }
  rewrite Hcode.
  pose proof (up_to_first_unique _ _ _ _ Hseg (up_to_first_find " |" rest))
    as Hcut.
  assert (Hname : strip seg ≠ [] →
            or_none (strip (match find " |" (lstrip rest) with
                            | Some end_idx => take end_idx (lstrip rest)
                            | None => lstrip rest
                            end)) = Some (strip seg)).
  { intros Hne. rewrite cut_after_lstrip; rewrite <- Hcut; [|done].
    by destruct (strip seg). }
  split; [exact Hname|]. split.
  - intros Hnone. destruct Hcovered as [Hne|Hblank]; [|done].
    by rewrite (Hname Hne) in Hnone.
  - intros Hblank. unfold lstrip. by rewrite dropwhile_all.
Qed.

Lemma extract_user_name_spec_witness :
  _extract_user_name "User:   Bob   | Message: hi" = Some (lit "Bob").
Proof.
  refine (proj1 (proj2 (extract_user_name_spec _)
                   (lit "   Bob   | Message: hi") (lit "   Bob  ") eq_refl
                   _ (or_introl _)) _).
  - exact (up_to_first_find " |" (lit "   Bob   | Message: hi")).
  - by vm_compute.
  - by vm_compute.
Defined.

(** The claim as worded fails on three counts: a [User:] segment that is
    not at the start of the document yields [None]; the text is trimmed,
    not verbatim; and a bar without a space before it does not end the
    name. *)
Lemma extract_user_name_counterexample :
  let doc : str := "Timestamp: 2024-01-01 | User: Bob | Message: hi" in
  (_extract_user_name doc = None ∧
   lit " User: Bob " ∈ split "|" doc ∧
   (_parse_doc_fields doc).1.1 = Some (lit "Bob")) ∧
  _extract_user_name "User:   Bob   | Message: hi" = Some (lit "Bob") ∧
  _extract_user_name "User: Al|Bo | Message: hi" = Some (lit "Al|Bo").
Proof.
  split_and!; try by vm_compute.
  refine (bool_decide_unpack _ _). by vm_compute.
Qed.

Example extract_user_name_examples :
  _extract_user_name bistro_doc = Some (lit "Alice") ∧
  _extract_user_name "User: Sam Smith" = Some (lit "Sam Smith") ∧
  _extract_user_name "User:    " = None ∧
  _extract_user_name "Message: hi" = None.
Proof. by vm_compute. Qed.

(** ** Flattening and parsing back *)

Lemma parse_part_user u t m v :
  parse_part (u, t, m) (strip (lit "User: " ++ v)) = (Some (strip v), t, m).
Proof.
  change (lit "User: " ++ v) with (lit "User:" ++ " "%char :: v).
  destruct (strip_labelled_value "User:" "U" ":" (lit "ser:") (lit "User") v)
    as [Hs Hv]; [done..|].
  unfold parse_part. rewrite Hv, Hs, startswith_app. done.
Qed.

Lemma parse_part_timestamp u t m v :
  parse_part (u, t, m) (strip (lit "Timestamp: " ++ v))
  = (u, Some (strip v), m).
Proof.
  change (lit "Timestamp: " ++ v) with (lit "Timestamp:" ++ " "%char :: v).
  destruct (strip_labelled_value "Timestamp:" "T" ":" (lit "imestamp:")
              (lit "Timestamp") v) as [Hs Hv]; [done..|].
  unfold parse_part. rewrite Hv, Hs, startswith_app. done.
Qed.

Lemma parse_part_message u t m v :
  parse_part (u, t, m) (strip (lit "Message: " ++ v))
  = (u, t, Some (strip v)).
Proof.
  change (lit "Message: " ++ v) with (lit "Message:" ++ " "%char :: v).
  destruct (strip_labelled_value "Message:" "M" ":" (lit "essage:")
              (lit "Message") v) as [Hs Hv]; [done..|].
  unfold parse_part. rewrite Hv, Hs, startswith_app. done.
Qed.

Lemma parse_part_id acc v :
  parse_part acc (strip (lit "id: " ++ v)) = acc.
Proof.
  change (lit "id: " ++ v) with (lit "id:" ++ " "%char :: v).
  destruct (strip_labelled_value "id:" "i" ":" (lit "d:") (lit "id") v)
    as [Hs _]; [done..|].
  unfold parse_part. rewrite Hs. by destruct acc as [[u t] m].
Qed.

Lemma parse_part_user_id acc v :
  parse_part acc (strip (lit "user_id: " ++ v)) = acc.
Proof.
  change (lit "user_id: " ++ v) with (lit "user_id:" ++ " "%char :: v).
  destruct (strip_labelled_value "user_id:" "u" ":" (lit "ser_id:")
              (lit "user_id") v) as [Hs _]; [done..|].
  unfold parse_part. rewrite Hs. by destruct acc as [[u t] m].
Qed.

Lemma parse_part_member_id acc v :
  parse_part acc (strip (lit "member_id: " ++ v)) = acc.
Proof.
  change (lit "member_id: " ++ v) with (lit "member_id:" ++ " "%char :: v).
  destruct (strip_labelled_value "member_id:" "m" ":" (lit "ember_id:")
              (lit "member_id") v) as [Hs _]; [done..|].
  unfold parse_part. rewrite Hs. by destruct acc as [[u t] m].
Qed.

Lemma labelled_no_bar (label : string) (v : str) :
  "|"%char ∉ lit label → "|"%char ∉ v → "|"%char ∉ lit label ++ v.
Proof. intros ??. by apply not_elem_of_app. Qed.

Lemma foldl_cons {A B} (f : A → B → A) (a : A) (x : B) (l : list B) :
  foldl f a (x :: l) = foldl f (f a x) l.
Proof. reflexivity. Qed.

Ltac no_bar :=
  apply labelled_no_bar;
  [refine (bool_decide_unpack _ _); by vm_compute | by auto].

(** C7 as the code has it: for a record that yields the [User],
    [Timestamp], [Message] and [id] segments and whose flattened values
    hold no ["|"], the segment parser returns the name, timestamp and
    message trimmed of surrounding whitespace, [None] standing for one
    that trims to nothing; values that are strings, not blank and already
    trimmed come back as they went in. *)
Theorem flatten_parse_roundtrip (fields : gmap str value) (text : str)
    (tv mv iv : value) :
  let name :=
    or_else (or_else (get fields "user_name") (get fields "member_name"))
            (get fields "name") in
  value_truthy name = true →
  fields !! lit "timestamp" = Some tv →
  fields !! lit "message" = Some mv →
  fields !! lit "id" = Some iv →
  "|"%char ∉ py_str name →
  "|"%char ∉ py_str tv →
  "|"%char ∉ py_str mv →
  "|"%char ∉ py_str iv →
  (∀ v, fields !! lit "user_id" = Some v → "|"%char ∉ py_str v) →
  (∀ v, fields !! lit "member_id" = Some v → "|"%char ∉ py_str v) →
  let doc := flatten (Dict fields text) in
  _parse_doc_fields doc
  = (or_none (strip (py_str name)), or_none (strip (py_str tv)),
     or_none (strip (py_str mv))) ∧
  (∀ n t m,
     name = VStr n → tv = VStr t → mv = VStr m →
     strip n = n → strip t = t → strip m = m → t ≠ [] → m ≠ [] →
     _parse_doc_fields doc = (Some n, Some t, Some m)).
Proof.
  intros name Hname Ht Hm Hi Hbn Hbt Hbm Hbi Hbu Hbd doc.
  assert (Hparse : _parse_doc_fields doc
            = (or_none (strip (py_str name)), or_none (strip (py_str tv)),
               or_none (strip (py_str mv)))).
  { unfold doc, flatten. fold name. rewrite Hname.
    unfold segment. rewrite Ht, Hm, Hi.
    unfold _parse_doc_fields.
    destruct (fields !! lit "user_id") as [uv|] eqn:Hu;
      destruct (fields !! lit "member_id") as [dv|] eqn:Hd;
      cbn [app];
      (rewrite strip_split_join;
       [ | done | repeat (apply Forall_cons; split; [no_bar|]);
                  apply Forall_nil_2 ]);
      rewrite !fmap_cons, fmap_nil, !foldl_cons;
      rewrite parse_part_user, parse_part_timestamp, parse_part_message,
        parse_part_id, ?parse_part_user_id, ?parse_part_member_id;
      reflexivity. }
  split; [exact Hparse|].
  intros n t m -> -> -> Hn Ht' Hm' Hte Hme.
  rewrite Hparse. simpl. rewrite Hn, Ht', Hm'.
  destruct n; [done|]. destruct t; [done|]. by destruct m.
Qed.

Lemma flatten_parse_roundtrip_witness :
  let fields : gmap str value :=
    <[lit "user_name" := VStr "Alice"]>
      (<[lit "timestamp" := VStr "2024-01-01"]>
         (<[lit "message" := VStr "I booked dinner at the new bistro"]>
            (<[lit "id" := VInt 7]> ∅))) in
  flatten (Dict fields "{}")
  = lit "User: Alice | Timestamp: 2024-01-01 | Message: I booked dinner at the new bistro | id: 7" ∧
  _parse_doc_fields (flatten (Dict fields "{}"))
  = (Some (lit "Alice"), Some (lit "2024-01-01"),
     Some (lit "I booked dinner at the new bistro")).
Proof.
  intros fields. split; [by vm_compute|].
  refine (proj2 (flatten_parse_roundtrip fields "{}"
                   (VStr "2024-01-01")
                   (VStr "I booked dinner at the new bistro") (VInt 7)
                   eq_refl eq_refl eq_refl eq_refl _ _ _ _ _ _)
            (lit "Alice") (lit "2024-01-01")
            (lit "I booked dinner at the new bistro")
            eq_refl eq_refl eq_refl eq_refl eq_refl eq_refl _ _);
    try done;
    try (refine (bool_decide_unpack _ _); by vm_compute);
    intros v Hv; by vm_compute in Hv.
Defined.

(** The claim for every record fails: a bar inside the message ends the
    segment; blanks around a value are dropped; an empty value comes back
    as [None]. *)
Lemma flatten_parse_counterexample :
  let fields : gmap str value :=
    <[lit "user_name" := VStr "Alice"]>
      (<[lit "timestamp" := VStr "2024-01-01"]>
         (<[lit "message" := VStr "Dinner at 7 | bring wine"]>
            (<[lit "id" := VStr "m1"]> ∅))) in
  flatten (Dict fields "{}")
  = lit "User: Alice | Timestamp: 2024-01-01 | Message: Dinner at 7 | bring wine | id: m1" ∧
  _parse_doc_fields (flatten (Dict fields "{}"))
  = (Some (lit "Alice"), Some (lit "2024-01-01"), Some (lit "Dinner at 7")) ∧
  _parse_doc_fields (flatten (Dict fields "{}"))
  ≠ (Some (lit "Alice"), Some (lit "2024-01-01"),
     Some (lit "Dinner at 7 | bring wine")) ∧
  _parse_doc_fields
    (flatten (Dict (<[lit "message" := VStr " hello "]> fields) "{}"))
  = (Some (lit "Alice"), Some (lit "2024-01-01"), Some (lit "hello")) ∧
  _parse_doc_fields
    (flatten (Dict (<[lit "timestamp" := VStr ""]> fields) "{}"))
  = (Some (lit "Alice"), None, Some (lit "Dinner at 7")).
Proof. by vm_compute. Qed.

(** * Further properties of the code *)

(** ** [build] *)

(** X1: whatever the object held before and whether [build] returns or
    raises, it leaves the given documents in place with one extracted
    member name per document, in order, and does not touch the stopwords
    or the synonym groups. *)
Theorem build_aligns_names `{TfidfBackend} (docs : list str) (s : QASystem) :
  let s' := (build docs s).2 in
  documents s' = docs ∧
  user_names s' = _extract_user_name <$> docs ∧
  length (user_names s') = length (documents s') ∧
  stopwords s' = stopwords s ∧
  topic_groups s' = topic_groups s.
Proof.
  destruct docs as [|d docs]; [by repeat split|].
  unfold build, mbind, Py_bind, set_documents, gets. simpl.
  destruct (fit_transform (d :: docs)) as [[vec mat]|]; simpl;
    rewrite ?length_fmap; by repeat split.
Qed.

(** X2: when fitting raises, [build] raises; the vectorizer attribute
    holds the unfitted object and the document matrix is the one from
    before.  On an object that had no matrix every later question gets the
    "no data" sentence. *)
Theorem build_failure `{TfidfBackend} (docs : list str) (s : QASystem) :
  docs ≠ [] →
  fit_transform docs = None →
  let s' := (build docs s).2 in
  (build docs s).1 = Raise SklearnError ∧
  vectorizer s' = Some unfitted ∧
  doc_matrix s' = doc_matrix s ∧
  (doc_matrix s = None → ∀ q, answer q s' = (Ok NO_DATA, s')).
Proof.
  intros Hdocs Hfit s'. destruct docs as [|d docs]; [done|].
  assert (Hs' : s' = {| vectorizer := Some unfitted;
                        doc_matrix := doc_matrix s;
                        documents := d :: docs;
                        user_names := _extract_user_name <$> d :: docs;
                        stopwords := stopwords s;
                        topic_groups := topic_groups s |}).
  { unfold s', build, mbind, Py_bind, set_documents, gets. simpl.
    by rewrite Hfit. }
  split_and!.
  - unfold build, mbind, Py_bind, set_documents, gets. simpl. by rewrite Hfit.
  - by rewrite Hs'.
  - by rewrite Hs'.
  - intros Hnone q. rewrite Hs'.
    unfold answer, answer_path, mbind, Py_bind, gets. simpl.
    by rewrite Hnone.
Qed.

Lemma build_failure_witness :
  let s' := (build [lit "   "; lit "!!"] init).2 in
  (build [lit "   "; lit "!!"] init).1 = Raise SklearnError ∧
  documents s' = [lit "   "; lit "!!"] ∧
  answer "Where did Alice have dinner?" s' = (Ok NO_DATA, s').
Proof.
  intros s'.
  destruct (build_failure [lit "   "; lit "!!"] init) as (Hr & _ & _ & Hans);
    [done | by vm_compute |].
  split_and!; [exact Hr | done | by apply Hans].
Defined.

(** ** [answer]: no exception, and the shape of what it returns *)

Lemma zero_non_candidates_length cand n_docs scores :
  length (zero_non_candidates cand n_docs scores) = length scores.
Proof.
  unfold zero_non_candidates. destruct (_ && _); [|done].
  generalize (seq 0 (length scores)). intros l. revert scores.
  induction l as [|j l IH]; intros scores; simpl; [done|].
  rewrite IH. case_bool_decide; [apply length_insert|done].
Qed.

Lemma argmax_is_Some l : l ≠ [] → is_Some (argmax l).
Proof. destruct l; [done|]. by eexists. Qed.

(** X3: on an object whose index is there, a question for which the
    backend returns one score per document is answered without any
    exception: [answer] returns a string and leaves the object as it
    was. *)
Theorem answer_returns `{TfidfBackend} (s : QASystem) (q : str)
    vec mat (scores : list Q) :
  vectorizer s = Some vec →
  doc_matrix s = Some mat →
  query_scores vec mat (strip q) = Some scores →
  length scores = length (documents s) →
  ∃ text, answer q s = (Ok text, s).
Proof.
  intros Hvec Hmat Hscores Hlen.
  assert (Hpath : ∃ o, answer_path q s = (Ok o, s)).
  { destruct (decide (documents s = [])) as [Hd|Hd].
    { exists NotBuilt. unfold answer_path, mbind, Py_bind, gets. simpl.
      by rewrite Hd. }
    destruct (decide (strip q = [])) as [Hq|Hq].
    { exists EmptyQuestion. unfold answer_path, mbind, Py_bind, gets. simpl.
      rewrite Hvec, Hmat, Hq. by destruct (documents s). }
    rewrite (answer_path_unfold s q vec mat Hd Hvec Hmat Hq), Hscores.
    assert (Hmlen : length (masked_scores s q scores) = length (documents s)).
    { unfold masked_scores. by rewrite zero_non_candidates_length. }
    destruct (argmax_is_Some (masked_scores s q scores)) as [best_idx Hbest].
    { intros Hnil. rewrite Hnil in Hmlen. by destruct (documents s). }
    rewrite Hbest. pose proof (argmax_lt _ _ Hbest) as Hlt.
    destruct (lookup_lt_is_Some_2 _ _ Hlt) as [best_score ->].
    destruct (too_weak _ _); [by eexists|].
    rewrite Hmlen in Hlt.
    destruct (lookup_lt_is_Some_2 _ _ Hlt) as [best_doc Hdoc].
    unfold present, mbind, Py_bind. rewrite Hdoc. simpl.
    destruct (_parse_doc_fields best_doc) as [[u t] m].
    rewrite run_topic_overlap_ok.
    destruct (topic_ok _ _ _ _); simpl; [|by eexists].
    destruct (_ && _); [by eexists|].
    destruct (_ ++ _); by eexists. }
  destruct Hpath as [o Ho]. exists (outcome_text o).
  unfold answer, mbind, Py_bind. by rewrite Ho.
Qed.

Lemma answer_returns_witness :
  let s := built [bistro_doc; bob_doc] in
  ∃ text, answer "Where did Alice have dinner?" s = (Ok text, s).
Proof.
  intros s.
  apply (answer_returns s "Where did Alice have dinner?" true
           [bistro_doc; bob_doc] [2 # 4; 2 # 4]); by vm_compute.
Defined.

(** The fields [_parse_doc_fields] returns are [None] or non-empty. *)
Lemma parse_fields_truthy doc u t m :
  _parse_doc_fields doc = (u, t, m) →
  (truthy u = false ↔ u = None) ∧ (truthy t = false ↔ t = None) ∧
  (truthy m = false ↔ m = None).
Proof.
  unfold _parse_doc_fields.
  destruct (foldl parse_part _ _) as [[u' t'] m']. intros [= <- <- <-].
  destruct u' as [[|??]|], t' as [[|??]|], m' as [[|??]|]; simpl;
    by repeat split.
Qed.

(** X4: the text handed back is the raw document only when none of the
    member name, timestamp and message could be read from it; as soon as
    one of them is read the text is the labelled segments joined by
    [" | "], the absent ones left out. *)
Theorem answered_text `{TfidfBackend} (q : str) (s s' : QASystem)
    (o : outcome) :
  answer_path q s = (Ok o, s') →
  match o with
  | RawFallback best_idx best_doc =>
      documents s !! best_idx = Some best_doc ∧
      _parse_doc_fields best_doc = (None, None, None)
  | Formatted best_idx text =>
      ∃ best_doc u t m,
        documents s !! best_idx = Some best_doc ∧
        _parse_doc_fields best_doc = (u, t, m) ∧
        (u, t, m) ≠ (None, None, None) ∧
        text = join " | " (labelled "Member: " u ++ labelled "Timestamp: " t
                           ++ labelled "Message: " m)
  | _ => True
  end.
Proof.
  intros Hrun.
  assert (Hpresent : (o = NotBuilt ∨ o = EmptyQuestion ∨ o = BelowThreshold)
            ∨ ∃ best_idx, present (strip q) (documents s) best_idx s = (Ok o, s')).
  { unfold answer_path, mbind, Py_bind, gets, mret, Py_ret in Hrun.
    simpl in Hrun.
    destruct (documents s) as [|d docs]; [simplify_eq; auto|].
    destruct (vectorizer s) as [vec|]; [|simplify_eq; auto].
    destruct (doc_matrix s) as [mat|]; [|simplify_eq; auto].
    case_bool_decide; [simplify_eq; auto|].
    destruct (resolve_candidates _ _ _ _) as [cand restricted].
    destruct (query_scores _ _ _) as [scores|]; simpl in Hrun; [|done].
    destruct (argmax _) as [best_idx|]; simpl in Hrun; [|done].
    destruct (_ !! best_idx) as [best_score|]; simpl in Hrun; [|done].
    destruct (too_weak _ _); [simplify_eq; auto|].
    right. by exists best_idx. }
  destruct Hpresent as [[->|[->| ->]]|[best_idx Hp]]; try done.
  unfold present, mbind, Py_bind, mret, Py_ret in Hp.
  destruct (documents s !! best_idx) as [best_doc|] eqn:Hdoc; simpl in Hp;
    [|done].
  destruct (_parse_doc_fields best_doc) as [[u t] m] eqn:Hparse.
  rewrite run_topic_overlap_ok in Hp.
  destruct (parse_fields_truthy _ _ _ _ Hparse) as (Hu & Ht & Hm).
  destruct (topic_ok _ _ _ _); [|simpl in Hp; by simplify_eq].
  change (negb true) with false in Hp. cbv beta iota in Hp.
  assert (Hnone : labelled "Member: " u ++ labelled "Timestamp: " t
                  ++ labelled "Message: " m = [] →
                  (u, t, m) = (None, None, None)).
  { assert (Hu' : u = None ∨ truthy u = true)
      by (destruct (truthy u); [by right | left; by apply Hu]).
    assert (Ht' : t = None ∨ truthy t = true)
      by (destruct (truthy t); [by right | left; by apply Ht]).
    assert (Hm' : m = None ∨ truthy m = true)
      by (destruct (truthy m); [by right | left; by apply Hm]).
    destruct Hu' as [->|Eu]; [|by destruct u as [[|??]|]].
    destruct Ht' as [->|Et]; [|by destruct t as [[|??]|]].
    destruct Hm' as [->|Em]; [done|by destruct m as [[|??]|]]. }
  destruct (negb (truthy u) && negb (truthy t) && negb (truthy m)) eqn:Hall.
  - apply andb_true_iff in Hall as [[Eu Et]%andb_true_iff Em].
    apply negb_true_iff in Eu, Et, Em.
    unfold mret, Py_ret in Hp. injection Hp as <- <-.
    split; [done|].
    by rewrite Hparse, (proj1 Hu Eu), (proj1 Ht Et), (proj1 Hm Em).
  - destruct (labelled _ u ++ _) as [|part parts] eqn:Hl.
    + unfold mret, Py_ret in Hp. injection Hp as <- <-.
      split; [done|]. rewrite Hparse. exact (Hnone eq_refl).
    + unfold mret, Py_ret in Hp. injection Hp as <- <-.
      exists best_doc, u, t, m. split_and!; try done.
      * intros [= -> -> ->]. done.
      * transitivity (join " | " (part :: parts)); [reflexivity|].
        f_equal. symmetry. exact Hl.
Qed.

Lemma answered_text_witness :
  let s := built [lit "hello dinner world"] in
  answer_path "Where was dinner?" s
  = (Ok (RawFallback 0 (lit "hello dinner world")), s) ∧
  _parse_doc_fields "hello dinner world" = (None, None, None).
Proof.
  intros s.
  assert (Hrun : answer_path "Where was dinner?" s
                 = (Ok (RawFallback 0 (lit "hello dinner world")), s)).
  { apply read_only_result; [apply read_only_answer_path|].
    vm_compute. reflexivity. }
  split; [exact Hrun|].
  exact (proj2 (answered_text _ _ _ _ Hrun)).
Defined.

(** ** The name resolver and the selection *)

(** X5: an unconfident resolution never narrows: its candidates are the
    whole range.  A confident one is never empty and holds only positions
    that carry a non-empty member name. *)
Theorem resolution_kinds (names : list (option str)) (n_docs : nat)
    (q_lower : str) (q_tokens : gset str) :
  let '(candidates, confident) :=
    resolve_candidates names n_docs q_lower q_tokens in
  (confident = false → candidates = seq 0 n_docs) ∧
  (confident = true →
   candidates ≠ [] ∧
   ∀ i, i ∈ candidates → ∃ n, names !! i = Some (Some n) ∧ n ≠ []).
Proof.
  unfold resolve_candidates. rewrite full_match_indices_filter.
  destruct (filter _ _) as [|j l] eqn:Hfull.
  - destruct (map_to_list _) as [|[k v] [|kv rest]] eqn:Hm;
      try (split; [done|by intros [=]]).
    split; [by intros [=]|]. intros _.
    assert (Hk : matches_by_full_name names q_tokens !! k = Some v).
    { apply elem_of_map_to_list. rewrite Hm. by left. }
    rewrite matches_by_full_name_lookup in Hk.
    case_bool_decide as Hcond; [|done]. destruct Hcond as [Hne _].
    assert (v = positions_of names k ∧ v ≠ []) as [-> Hv].
    { destruct (positions_of names k); simpl in Hk; by simplify_eq. }
    split; [done|]. intros i Hi%elem_of_positions_of. eauto.
  - split; [by intros [=]|]. intros _. split; [done|].
    intros i Hi. rewrite <- Hfull in Hi.
    apply list_elem_of_filter in Hi as [Hi _].
    apply Is_true_true, full_match_at_spec in Hi as (n & Hn & Hne & _). eauto.
Qed.

Lemma argmax_go_spec (pre l : list Q) (best_i : nat) (best : Q) :
  pre !! best_i = Some best →
  (∀ j y, pre !! j = Some y → (y <= best)%Q) →
  (∀ j y, j < best_i → pre !! j = Some y → (y < best)%Q) →
  let r := argmax_go best_i best (length pre) l in
  ∃ x, (pre ++ l) !! r = Some x ∧
       (∀ j y, (pre ++ l) !! j = Some y → (y <= x)%Q) ∧
       (∀ j y, j < r → (pre ++ l) !! j = Some y → (y < x)%Q).
Proof.
  revert pre best_i best.
  induction l as [|x l IH]; intros pre best_i best Hbest Hmax Hfirst; simpl.
  - rewrite app_nil_r. eauto.
  - rewrite (cons_middle x pre l), app_assoc.
    replace (S (length pre)) with (length (pre ++ [x]))
      by (rewrite length_app; simpl; lia).
    case_bool_decide as Hlt.
    + apply IH.
      * by rewrite lookup_app_r, Nat.sub_diag.
      * intros j y Hj. apply lookup_app_Some in Hj as [Hj|[_ Hj]].
        -- apply Qlt_le_weak. eapply Qle_lt_trans; [by eapply Hmax|done].
        -- destruct (j - length pre); simpl in Hj; simplify_eq.
           apply Qle_refl.
      * intros j y Hj Hy. rewrite lookup_app_l in Hy by done.
        eapply Qle_lt_trans; [by eapply Hmax|done].
    + apply Qnot_lt_le in Hlt. apply IH.
      * rewrite lookup_app_l; [done|]. by eapply lookup_lt_Some.
      * intros j y Hj. apply lookup_app_Some in Hj as [Hj|[_ Hj]].
        -- by eapply Hmax.
        -- destruct (j - length pre); simpl in Hj; by simplify_eq.
      * intros j y Hj Hy. apply lookup_lt_Some in Hbest.
        rewrite lookup_app_l in Hy by lia. by eapply Hfirst.
Qed.

(** X6: the selected position holds a score that no score exceeds, and
    every score before it is strictly smaller: among equal maxima the
    lowest position wins.  Only the empty vector has no selection. *)
Theorem argmax_first_maximum (scores : list Q) :
  (argmax scores = None ↔ scores = []) ∧
  ∀ best_idx, argmax scores = Some best_idx →
    ∃ best_score,
      scores !! best_idx = Some best_score ∧
      (∀ j y, scores !! j = Some y → (y <= best_score)%Q) ∧
      (∀ j y, j < best_idx → scores !! j = Some y → (y < best_score)%Q).
Proof.
  split; [by destruct scores|].
  intros best_idx Hbest. destruct scores as [|x l]; [done|].
  injection Hbest as <-.
  apply (argmax_go_spec [x] l 0 x); [done| |].
  - intros [|j] y Hj; simpl in Hj; simplify_eq. apply Qle_refl.
  - intros j y Hj. lia.
Qed.

Example argmax_tie : argmax [0.2; 0.7; 0.7; 0.1]%Q = Some 1.
Proof. reflexivity. Qed.

(** ** More on trimming *)

Lemma dropwhile_nil_all {A} (f : A → bool) (l : list A) :
  dropwhile f l = [] → Forall f l.
Proof.
  induction l as [|x l IH]; simpl; [by constructor|].
  destruct (f x) eqn:Hx; [|done]. intros Hl. constructor; [by rewrite Hx|auto].
Qed.

Lemma dropwhile_head {A} (f : A → bool) (l : list A) x l' :
  dropwhile f l = x :: l' → f x = false.
Proof.
  induction l as [|y l IH]; simpl; [done|].
  destruct (f y) eqn:Hy; [done|]. by intros [= <- _].
Qed.

Lemma lstrip_blank_app (a z : str) :
  Forall is_space a → lstrip (a ++ z) = lstrip z.
Proof.
  unfold lstrip. intros Ha. by rewrite dropwhile_app, dropwhile_all.
Qed.

Lemma lstrip_app_nonblank (n tail : str) :
  lstrip n ≠ [] → lstrip (n ++ tail) = lstrip n ++ tail.
Proof.
  unfold lstrip. intros Hn. rewrite dropwhile_app.
  by destruct (dropwhile is_space n).
Qed.

Lemma rstrip_blank (s : str) : Forall is_space s → rstrip s = [].
Proof.
  intros Hs. unfold rstrip. rewrite dropwhile_all; [done|].
  by apply Forall_reverse.
Qed.

Lemma rstrip_app (a y : str) :
  rstrip (a ++ y) = match rstrip y with [] => rstrip a | r => a ++ r end.
Proof.
  unfold rstrip. rewrite reverse_app, dropwhile_app.
  destruct (dropwhile is_space (reverse y)) as [|x w]; [done|].
  rewrite reverse_app, reverse_involutive.
  by destruct (reverse (x :: w)) eqn:Hr;
    [apply (f_equal length) in Hr; rewrite length_reverse in Hr|].
Qed.

Lemma rstrip_cons_nonspace (c : ascii) (b : str) :
  is_space c = false → ∃ b', rstrip (c :: b) = c :: b'.
Proof.
  intros Hc. unfold rstrip. rewrite reverse_cons, dropwhile_app.
  destruct (dropwhile is_space (reverse b)) as [|x w].
  - simpl. rewrite Hc. by exists [].
  - rewrite reverse_app. exists (reverse (x :: w)). reflexivity.
Qed.

Lemma rstrip_lstrip (s : str) : rstrip (lstrip s) = lstrip (rstrip s).
Proof.
  destruct (lstrip s) as [|c b] eqn:Hl.
  - apply dropwhile_nil_all in Hl. by rewrite (rstrip_blank s Hl).
  - pose proof (dropwhile_head _ _ _ _ Hl) as Hc.
    assert (Hs : ∃ a, s = a ++ c :: b ∧ Forall is_space a).
    { clear Hc. revert Hl. unfold lstrip.
      induction s as [|x s IH]; simpl; [done|].
      destruct (is_space x) eqn:Hx.
      - intros Hl. destruct (IH Hl) as (a & -> & Ha).
        exists (x :: a). split; [done|]. constructor; [by rewrite Hx|done].
      - intros [= -> ->]. by exists []. }
    destruct Hs as (a & -> & Ha).
    destruct (rstrip_cons_nonspace c b Hc) as [b' Hb'].
    rewrite rstrip_app, Hb', lstrip_blank_app by done.
    unfold lstrip. simpl. by rewrite Hc.
Qed.

Lemma strip_lstrip (s : str) : strip (lstrip s) = strip s.
Proof.
  unfold strip. rewrite rstrip_lstrip. apply dropwhile_idemp.
Qed.

Lemma strip_idemp (s : str) : strip (strip s) = strip s.
Proof.
  unfold strip at 2. rewrite strip_lstrip. apply strip_rstrip.
Qed.

Lemma strip_nonblank_lstrip (n : str) : strip n ≠ [] → lstrip n ≠ [].
Proof.
  intros Hn Hl. apply Hn, strip_blank. by apply dropwhile_nil_all.
Qed.

(** ** The flattener and the two readers of its output *)

Lemma find_absent (sep s : str) :
  (∀ pre post, s ≠ pre ++ sep ++ post) → find sep s = None.
Proof.
  intros Hno. destruct (find sep s) as [i|] eqn:Hi; [|done].
  destruct (find_Some _ _ _ Hi) as (post & Hs & _). by apply Hno in Hs.
Qed.

(** The first [" |"] of a text that goes on with [" | "] after a part
    without bar is at the end of that part. *)
Lemma up_to_first_bar (part tail : str) :
  "|"%char ∉ part →
  up_to_first " |" (part ++ lit " | " ++ tail) part.
Proof.
  intros Hbar. left. exists (" "%char :: tail). split; [done|].
  intros pre' post' Hs.
  destruct (decide (length part ≤ length pre')) as [|Hshort]; [done|].
  exfalso. apply (f_equal (λ l, l !! (length pre' + 1))) in Hs.
  rewrite (lookup_app_r pre') in Hs by lia.
  replace (length pre' + 1 - length pre') with 1 in Hs by lia.
  simpl in Hs.
  destruct (decide (length pre' + 1 < length part)) as [Hin|Hout].
  - rewrite lookup_app_l in Hs by done.
    apply Hbar. by eapply list_elem_of_lookup_2.
  - rewrite lookup_app_r in Hs by lia.
    replace (length pre' + 1 - length part) with 0 in Hs by lia. done.
Qed.

Lemma up_to_first_no_bar (part : str) :
  "|"%char ∉ part → up_to_first " |" part part.
Proof.
  intros Hbar. right. split; [done|]. intros pre post ->. apply Hbar.
  apply elem_of_app. right. apply elem_of_app. left. by right; left.
Qed.

Lemma extract_user_name_line (n tail : str) :
  "|"%char ∉ n →
  strip n ≠ [] →
  tail = [] ∨ (∃ rest, tail = lit " | " ++ rest) →
  _extract_user_name (lit "User: " ++ n ++ tail) = Some (strip n).
Proof.
  intros Hbar Hn Htail.
  pose proof (strip_nonblank_lstrip n Hn) as Hl.
  assert (Hbar' : "|"%char ∉ lstrip n).
  { intros Hin. apply Hbar. clear -Hin. revert Hin. unfold lstrip.
    induction n as [|x n IH]; simpl; [done|].
    destruct (is_space x); [right; auto|done]. }
  unfold _extract_user_name.
  change (lit "User: " ++ n ++ tail)
    with (lit "User:" ++ " "%char :: n ++ tail).
  rewrite startswith_app, drop_app_length. simpl negb. cbv iota.
  assert (Hrest : lstrip (" "%char :: n ++ tail) = lstrip n ++ tail).
  { rewrite <- (lstrip_app_nonblank n tail Hl). reflexivity. }
  rewrite Hrest.
  pose proof (up_to_first_find " |" (lstrip n ++ tail)) as Hseg.
  assert (Hmine : up_to_first " |" (lstrip n ++ tail) (lstrip n)).
  { destruct Htail as [->|[rest ->]].
    - rewrite app_nil_r. by apply up_to_first_no_bar.
    - by apply up_to_first_bar. }
  pose proof (up_to_first_unique _ _ _ _ Hseg Hmine) as Heq.
  assert (Hname : match find " |" (lstrip n ++ tail) with
                  | Some end_idx => strip (take end_idx (lstrip n ++ tail))
                  | None => strip (lstrip n ++ tail)
                  end = strip n).
  { destruct (find " |" (lstrip n ++ tail)); by rewrite Heq, strip_lstrip. }
  cbv zeta. rewrite Hname. by destruct (strip n).
Qed.

Lemma join_cons_cases (sep p : str) (ps : list str) :
  join sep (p :: ps) = p ∧ ps = [] ∨
  ∃ rest, join sep (p :: ps) = p ++ sep ++ rest.
Proof. destruct ps as [|p' ps]; [by left|right]. by eexists. Qed.

(** X7: for a record that has a name -- the first truthy one of
    [user_name], [member_name], [name] -- without a bar and not blank, the
    member name taken at build time from the flattened document is that
    name, trimmed; the other fields of the record play no part. *)
Theorem extract_after_flatten (fields : gmap str value) (text : str) :
  let name :=
    or_else (or_else (get fields "user_name") (get fields "member_name"))
            (get fields "name") in
  value_truthy name = true →
  "|"%char ∉ py_str name →
  strip (py_str name) ≠ [] →
  _extract_user_name (flatten (Dict fields text))
  = Some (strip (py_str name)).
Proof.
  intros name Htruthy Hbar Hblank.
  unfold flatten. fold name. rewrite Htruthy.
  set (others := segment fields "Timestamp: " "timestamp" ++ _).
  change ([lit "User: " ++ py_str name] ++ others)
    with ((lit "User: " ++ py_str name) :: others).
  cbv iota.
  destruct (join_cons_cases " | " (lit "User: " ++ py_str name) others)
    as [[-> _]|[rest ->]].
  - rewrite <- (app_nil_r (py_str name)) at 1.
    apply extract_user_name_line; auto.
  - rewrite <- app_assoc. apply extract_user_name_line; eauto.
Qed.

Lemma extract_after_flatten_witness :
  let fields : gmap str value :=
    <[lit "member_name" := VStr "  Sam Smith "]>
      (<[lit "user_name" := VStr ""]>
         (<[lit "message" := VStr "see you | at 7"]> ∅)) in
  flatten (Dict fields "{}")
  = lit "User:   Sam Smith  | Message: see you | at 7" ∧
  _extract_user_name (flatten (Dict fields "{}")) = Some (lit "Sam Smith").
Proof.
  intros fields. split; [by vm_compute|].
  apply (extract_after_flatten fields "{}"); [done| |by vm_compute].
  refine (bool_decide_unpack _ _). by vm_compute.
Defined.

(** X8: a record without a truthy name gives a document that does not
    begin with [User:] and from which no member name is taken at build
    time; when it has none of the other flattened keys either, the
    document is the record's own string form. *)
Theorem flatten_without_name (fields : gmap str value) (text : str) :
  let name :=
    or_else (or_else (get fields "user_name") (get fields "member_name"))
            (get fields "name") in
  let other_segment :=
    is_Some (fields !! lit "timestamp") ∨ is_Some (fields !! lit "message") ∨
    is_Some (fields !! lit "id") ∨ is_Some (fields !! lit "user_id") ∨
    is_Some (fields !! lit "member_id") in
  value_truthy name = false →
  (¬ other_segment → flatten (Dict fields text) = text) ∧
  (other_segment →
   startswith "User:" (flatten (Dict fields text)) = false ∧
   _extract_user_name (flatten (Dict fields text)) = None).
Proof.
  intros name other_segment Hfalsy. unfold other_segment.
  unfold flatten. fold name. rewrite Hfalsy. unfold segment.
  destruct (fields !! lit "timestamp") as [tv|];
    destruct (fields !! lit "message") as [mv|];
    destruct (fields !! lit "id") as [iv|];
    destruct (fields !! lit "user_id") as [uv|];
    destruct (fields !! lit "member_id") as [dv|];
    (split; intros Hseg;
     [ first [ reflexivity
             | exfalso; apply Hseg; unfold is_Some; eauto 10 ]
     | first [ split; reflexivity
             | exfalso; unfold is_Some in Hseg;
               repeat (destruct Hseg as [[? ?]|Hseg]; [done|]);
               by destruct Hseg ] ]).
Qed.

Lemma flatten_without_name_witness :
  let fields : gmap str value :=
    <[lit "user_name" := VStr ""]>
      (<[lit "message" := VStr "User: Mallory"]> ∅) in
  flatten (Dict fields "{}") = lit "Message: User: Mallory" ∧
  startswith "User:" (flatten (Dict fields "{}")) = false ∧
  _extract_user_name (flatten (Dict fields "{}")) = None.
Proof.
  intros fields. split; [by vm_compute|].
  refine (proj2 (flatten_without_name fields "{}" _) _); [done|].
  right; left. by eexists.
Defined.

(** ** A later segment of the same kind *)

Lemma split_app_bar (c : ascii) (a rest : str) :
  split c (a ++ c :: rest) = split c a ++ split c rest.
Proof.
  induction a as [|x a IH]; simpl.
  - by rewrite bool_decide_eq_true_2.
  - case_bool_decide; [by rewrite IH|].
    rewrite IH. pose proof (split_nonempty c a).
    by destruct (split c a).
Qed.

Lemma split_snoc (c x : ascii) (s : str) :
  x ≠ c →
  ∃ init lst, split c s = init ++ [lst] ∧
              split c (s ++ [x]) = init ++ [lst ++ [x]].
Proof.
  intros Hx. induction s as [|y s (init & lst & Hs & Hsx)]; simpl.
  - rewrite bool_decide_eq_false_2 by done. by exists [], [].
  - rewrite Hs, Hsx. case_bool_decide.
    + by exists ([] :: init), lst.
    + destruct init as [|h t]; simpl.
      * by exists [], (y :: lst).
      * by exists ((y :: h) :: t), lst.
Qed.

Lemma strip_split_snoc_space (c sp : ascii) (s : str) :
  is_space sp = true → sp ≠ c →
  strip <$> split c (s ++ [sp]) = strip <$> split c s.
Proof.
  intros Hsp Hne. destruct (split_snoc c sp s Hne) as (init & lst & -> & ->).
  by rewrite !fmap_app, !fmap_cons, strip_snoc_space.
Qed.

(** X9: segments are read in order and a later one replaces an earlier
    one of its kind: a document that goes on with [" | User: <n>"], [n]
    without bar, parses to the member name [n], trimmed, whatever name
    came before; timestamp and message stay as they were. *)
Theorem later_user_segment_wins (doc n : str) :
  "|"%char ∉ n →
  _parse_doc_fields (doc ++ lit " | User: " ++ n)
  = (or_none (strip n), (_parse_doc_fields doc).1.2,
     (_parse_doc_fields doc).2).
Proof.
  intros Hbar. unfold _parse_doc_fields.
  change (doc ++ lit " | User: " ++ n)
    with (doc ++ " "%char :: "|"%char :: (" "%char :: lit "User: " ++ n)).
  rewrite (cons_middle " "%char doc), app_assoc, split_app_bar.
  rewrite fmap_app, strip_split_snoc_space by done.
  rewrite (split_no_sep "|" (" "%char :: lit "User: " ++ n)).
  2:{ apply not_elem_of_cons. split; [done|].
      apply not_elem_of_app. split; [|done].
      refine (bool_decide_unpack _ _). by vm_compute. }
  rewrite fmap_cons, fmap_nil, strip_cons_space by done.
  rewrite foldl_app.
  destruct (foldl parse_part (None, None, None) (strip <$> split "|" doc))
    as [[u t] m].
  rewrite foldl_cons, parse_part_user. reflexivity.
Qed.

Lemma later_user_segment_wins_witness :
  _parse_doc_fields
    "User: Alice | Message: hi | User: Mallory"
  = (Some (lit "Mallory"), None, Some (lit "hi")).
Proof.
  refine (eq_trans
            (later_user_segment_wins "User: Alice | Message: hi" "Mallory" _)
            _).
  - refine (bool_decide_unpack _ _). by vm_compute.
  - by vm_compute.
Defined.

(** ** Letter case and tokens *)

Lemma lower_char_idemp (c : ascii) : lower_char (lower_char c) = lower_char c.
Proof. by destruct c as [[] [] [] [] [] [] [] []]. Qed.

Lemma is_space_lower_char (c : ascii) : is_space (lower_char c) = is_space c.
Proof. by destruct c as [[] [] [] [] [] [] [] []]. Qed.

Lemma lower_idemp (s : str) : lower (lower s) = lower s.
Proof.
  unfold lower. rewrite <- list_fmap_compose.
  apply list_fmap_ext. intros _ c _. apply lower_char_idemp.
Qed.

Lemma dropwhile_lower (s : str) :
  dropwhile is_space (lower s) = lower (dropwhile is_space s).
Proof.
  induction s as [|c s IH]; simpl; [done|].
  rewrite is_space_lower_char. by destruct (is_space c).
Qed.

Lemma lower_strip (s : str) : lower (strip s) = strip (lower s).
Proof.
  unfold strip, lstrip, rstrip, lower.
  rewrite <- fmap_reverse. fold (lower (reverse s)).
  rewrite dropwhile_lower. unfold lower.
  rewrite <- fmap_reverse.
  fold (lower (reverse (dropwhile is_space (reverse s)))).
  by rewrite dropwhile_lower.
Qed.

(** X10: the name resolution and the topic filter see the question only
    through its lowercased form: two questions that differ in letter case
    alone get the same candidates, the same confidence and the same
    verdict of the filter on every document. *)
Theorem question_case_is_ignored `{TfidfBackend} (s : QASystem) (q q' : str) :
  lower q = lower q' →
  name_resolution s q = name_resolution s q' ∧
  ∀ doc user_name,
    _topic_overlap_ok (strip q) doc user_name s
    = _topic_overlap_ok (strip q') doc user_name s.
Proof.
  intros Hcase.
  assert (Hstrip : lower (strip q) = lower (strip q'))
    by (by rewrite !lower_strip, Hcase).
  assert (Htok : tokens_of s (strip q) = tokens_of s (strip q'))
    by (unfold tokens_of; by rewrite Hstrip).
  split.
  - unfold name_resolution. by rewrite Hstrip, Htok.
  - intros doc user_name. rewrite !run_topic_overlap_ok.
    unfold topic_ok, reduced_tokens. by rewrite Htok.
Qed.

Lemma question_case_is_ignored_witness :
  let s := built [bistro_doc; bob_doc] in
  name_resolution s "WHERE did ALICE have Dinner?"
  = name_resolution s "where did alice have dinner?".
Proof.
  intros s.
  apply (question_case_is_ignored s "WHERE did ALICE have Dinner?"
           "where did alice have dinner?").
  by vm_compute.
Defined.

Lemma findall_go_spec (cur s : str) (t : str) :
  Forall is_word cur →
  t ∈ findall_go cur s →
  t ≠ [] ∧ Forall is_word t ∧ ∃ pre post, reverse cur ++ s = pre ++ t ++ post.
Proof.
  revert cur. induction s as [|c s IH]; intros cur Hcur; simpl.
  - destruct cur as [|x cur]; simpl; [by intros ?%elem_of_nil|].
    intros ->%list_elem_of_singleton. split_and!.
    + intros Hr%(f_equal length). by rewrite length_reverse in Hr.
    + by apply Forall_reverse.
    + exists [], []. by rewrite !app_nil_r.
  - destruct (is_word c) eqn:Hc.
    + intros Ht. destruct (IH (c :: cur)) as (Hne & Hw & pre & post & Hs);
        [constructor; [by rewrite Hc|done] | done |].
      split_and!; [done..|]. exists pre, post.
      by rewrite <- Hs, reverse_cons, <- app_assoc.
    + intros [Ht|Ht]%elem_of_app.
      * destruct cur as [|x cur]; simpl in Ht; [by apply elem_of_nil in Ht|].
        apply list_elem_of_singleton in Ht as ->. split_and!.
        -- intros Hr%(f_equal length). by rewrite length_reverse in Hr.
        -- by apply Forall_reverse.
        -- by exists [], (c :: s).
      * destruct (IH [] (Forall_nil_2 _) Ht) as (Hne & Hw & pre & post & Hs).
        split_and!; [done..|]. exists (reverse cur ++ c :: pre), post.
        simpl in Hs. rewrite Hs. by rewrite <- app_assoc.
Qed.

(** X11: every token [_tokenize] returns is a non-empty run of word
    characters that occurs in the lowercased text, and is not a
    stopword. *)
Theorem tokens_are_words `{TfidfBackend} (s : QASystem) (text t : str) :
  t ∈ tokens_of s text →
  _tokenize text s = (Ok (tokens_of s text), s) ∧
  (t ∉ stopwords s) ∧ t ≠ [] ∧ Forall is_word t ∧
  ∃ pre post, lower text = pre ++ t ++ post.
Proof.
  unfold tokens_of at 1.
  rewrite elem_of_list_to_set, list_elem_of_filter. intros [Hstop Ht].
  destruct (findall_go_spec [] (lower text) t (Forall_nil_2 _) Ht)
    as (Hne & Hw & Hsub).
  by rewrite run_tokenize.
Qed.

Lemma tokens_are_words_witness :
  lit "alice" ∈ tokens_of (built [bistro_doc]) "Where did Alice have dinner?" ∧
  Forall is_word (lit "alice").
Proof.
  assert (Hin : lit "alice" ∈ tokens_of (built [bistro_doc])
                                 "Where did Alice have dinner?").
  { refine (bool_decide_unpack _ _). vm_compute. exact I. }
  split; [exact Hin|].
  exact (proj1 (proj2 (proj2 (proj2 (tokens_are_words _ _ _ Hin))))).
Defined.

(** ** The endpoints *)

Lemma answer_strip `{TfidfBackend} (q : str) (s : QASystem) :
  answer (strip q) s = answer q s.
Proof. unfold answer, answer_path. by rewrite strip_idemp. Qed.

(** X12: for a question with something in it, [POST /ask] and [GET /ask]
    give the same response, which carries the answer to the question as
    it was sent: the trimming done by the [POST] handler changes
    nothing. *)
Theorem post_and_get_agree `{TfidfBackend} (q : str) (s : QASystem) :
  strip q ≠ [] →
  ask q s = ask_get q s ∧
  ∀ text, answer q s = (Ok text, s) → ask q s = (Ok (QAResponse text), s).
Proof.
  intros Hq.
  assert (Hlen : ¬ length q < 1).
  { destruct q; [done|simpl; lia]. }
  assert (Hask : ask q s = (answer q ≫= λ text, mret (QAResponse text)) s).
  { unfold ask. rewrite bool_decide_eq_false_2 by done.
    unfold mbind, Py_bind. by rewrite answer_strip. }
  split.
  - rewrite Hask. unfold ask_get. by rewrite bool_decide_eq_false_2.
  - intros text Ha. rewrite Hask. unfold mbind, Py_bind. by rewrite Ha.
Qed.

Lemma post_and_get_agree_witness :
  let s := built [bistro_doc] in
  ask "  Where did Alice have dinner? " s
  = ask_get "  Where did Alice have dinner? " s.
Proof.
  intros s.
  refine (proj1 (post_and_get_agree "  Where did Alice have dinner? " s _)).
  by vm_compute.
Defined.

(** X13: the two endpoints part on a blank question.  [POST /ask] turns
    it away with the 400 whatever the state of the index, before [answer]
    is ever called; [GET /ask] accepts any question of one character or
    more, so a question of blanks reaches [answer] and comes back with the
    "no data" sentence on an object without index and with the "empty
    question" sentence otherwise. *)
Theorem blank_question_at_the_endpoints `{TfidfBackend} (q : str)
    (s : QASystem) :
  Forall is_space q →
  ask q s = (Ok (BadRequest "Question must not be empty"), s) ∧
  (q = [] → ask_get q s = (Ok Unprocessable, s)) ∧
  (q ≠ [] →
   ask_get q s =
     (Ok (QAResponse
            (if bool_decide (documents s ≠ [] ∧ is_Some (vectorizer s)
                             ∧ is_Some (doc_matrix s))
             then EMPTY_QUESTION else NO_DATA)), s)).
Proof.
  intros Hq. pose proof (strip_blank q Hq) as Hstrip. split_and!.
  - unfold ask. by rewrite Hstrip.
  - by intros ->.
  - intros Hne. unfold ask_get.
    rewrite bool_decide_eq_false_2 by (destruct q; [done|simpl; lia]).
    unfold mbind, Py_bind.
    case_bool_decide as Hbuilt.
    + destruct Hbuilt as (Hd & [vec Hv] & [mat Hm]).
      unfold answer, answer_path, mbind, Py_bind, gets. simpl.
      rewrite Hv, Hm, Hstrip. by destruct (documents s).
    + unfold answer, answer_path, mbind, Py_bind, gets. simpl.
      destruct (documents s) as [|d docs]; [done|].
      destruct (vectorizer s) as [vec|]; [|done].
      destruct (doc_matrix s) as [mat|]; [|done].
      exfalso. apply Hbuilt. split_and!; [done|by eexists..].
Qed.

Lemma blank_question_at_the_endpoints_witness :
  let s := built [bistro_doc] in
  ask "   " s = (Ok (BadRequest "Question must not be empty"), s) ∧
  ask_get "   " s = (Ok (QAResponse EMPTY_QUESTION), s).
Proof.
  intros s.
  destruct (blank_question_at_the_endpoints "   " s) as (Hpost & _ & Hget);
    [by repeat constructor|].
  split; [exact Hpost|]. rewrite Hget by done.
  by rewrite bool_decide_eq_true_2 by (split_and!; [done|by eexists..]).
Defined.

(** ** Start-up *)

(** X14: [startup_event] never lets an exception out, whatever the fetch
    and the build do; and when the fetch failed or brought no message the
    object is left without index, so that every question put to a fresh
    application gets the "no data" sentence. *)
Theorem startup_without_messages `{TfidfBackend}
    (fetch : result (list raw_message)) :
  fetch = Ok [] ∨ (∃ e, fetch = Raise e) →
  (∀ any_fetch s, (startup_event any_fetch s).1 = Ok ()) ∧
  let s := (startup_event fetch init).2 in
  documents s = [] ∧
  ∀ q, answer q s = (Ok NO_DATA, s).
Proof.
  intros Hfetch. split.
  - intros any_fetch s. unfold startup_event, swallow.
    match goal with |- (match ?m with _ => _ end).1 = _ =>
      by destruct m as [[[]|e] s'] end.
  - destruct Hfetch as [->|[e ->]]; by split.
Qed.

Lemma startup_without_messages_witness :
  let s := (startup_event (Raise ValueError) init).2 in
  (startup_event (Raise ValueError) init).1 = Ok () ∧
  answer "Where did Alice have dinner?" s = (Ok NO_DATA, s).
Proof.
  intros s.
  destruct (startup_without_messages (Raise ValueError)) as [Hok [_ Hans]];
    [right; by eexists|].
  split; [apply Hok | apply Hans].
Defined.

Lemma build_run `{TfidfBackend} docs s vec mat :
  docs ≠ [] →
  fit_transform docs = Some (vec, mat) →
  build docs s
  = (Ok (), {| vectorizer := Some vec; doc_matrix := Some mat;
               documents := docs;
               user_names := _extract_user_name <$> docs;
               stopwords := stopwords s;
               topic_groups := topic_groups s |}).
Proof.
  intros Hdocs Hfit. destruct docs as [|d docs]; [done|].
  unfold build, mbind, Py_bind, set_documents, gets. simpl.
  by rewrite Hfit.
Qed.

(** X15: after a start-up whose fetch and build went through, the object
    holds one document per fetched record, each with its extracted member
    name, and the index. *)
Theorem startup_builds `{TfidfBackend} (messages : list raw_message)
    (s : QASystem) vec mat :
  messages ≠ [] →
  fit_transform (build_documents messages) = Some (vec, mat) →
  let s' := (startup_event (Ok messages) s).2 in
  documents s' = flatten <$> messages ∧
  user_names s' = _extract_user_name <$> documents s' ∧
  vectorizer s' = Some vec ∧
  doc_matrix s' = Some mat.
Proof.
  intros Hne Hfit.
  assert (Hdocs : build_documents messages ≠ [])
    by (by destruct messages).
  assert (Hrun : startup_event (Ok messages) s
                 = build (build_documents messages) s).
  { unfold startup_event, swallow, outcome_of, mbind, Py_bind.
    rewrite (build_run _ _ _ _ Hdocs Hfit). done. }
  rewrite Hrun, (build_run _ _ _ _ Hdocs Hfit). by repeat split.
Qed.

Lemma startup_builds_witness :
  let s' := (startup_event
               (Ok [Dict (<[lit "user_name" := VStr "Alice"]>
                            (<[lit "message" := VStr "I booked dinner"]> ∅))
                         "{}"])
               init).2 in
  documents s' = [lit "User: Alice | Message: I booked dinner"] ∧
  user_names s' = [Some (lit "Alice")].
Proof.
  intros s'.
  destruct (startup_builds (H := overlap_backend)
              [Dict (<[lit "user_name" := VStr "Alice"]>
                       (<[lit "message" := VStr "I booked dinner"]> ∅)) "{}"]
              init true [lit "User: Alice | Message: I booked dinner"])
    as (Hd & Hu & _); [done | by vm_compute |].
  fold s' in Hd, Hu. split.
  - rewrite Hd. by vm_compute.
  - rewrite Hu, Hd. by vm_compute.
Defined.

(** ** The fetched payload *)

Lemma normalize_all_dicts (items : list json) :
  Forall is_dict (normalize items).
Proof.
  unfold normalize. apply Forall_fmap, Forall_forall.
  intros item _. by destruct item.
Qed.

(** X16: whatever the HTTP exchange gives, the messages [get_messages]
    ends with are all dicts; a transport error, a status outside
    200..299 and a body that is not JSON give no message at all. *)
Theorem get_messages_gives_dicts (outcome : http_outcome) :
  Forall is_dict (fetched_messages (get_messages outcome)) ∧
  (outcome = HTTPError ∨
   (∃ status_code body,
      outcome = Response status_code body ∧
      (¬ (200 ≤ status_code < 300)%Z ∨ body = None)) →
   get_messages outcome = Returned []).
Proof.
  split.
  - destruct outcome as [|status_code [payload|]]; simpl;
      [by constructor | | by destruct (negb _); constructor].
    destruct (negb _); simpl; [by constructor|]. apply normalize_all_dicts.
  - intros [->|(status_code & body & -> & [Hstatus| ->])]; simpl; [done| |].
    + destruct (negb _) eqn:Hin; [done|]. exfalso. apply Hstatus.
      apply negb_false_iff, andb_true_iff in Hin as [?%Z.leb_le ?%Z.ltb_lt].
      lia.
    + by destruct (negb _).
Qed.

Lemma first_list_spec (values : list json) :
  match first_list values with
  | Some items =>
      ∃ pre post, values = pre ++ JList items :: post ∧
                  Forall (λ v, ∀ l, v ≠ JList l) pre
  | None => Forall (λ v, ∀ l, v ≠ JList l) values
  end.
Proof.
  induction values as [|v values IH]; simpl; [by constructor|].
  destruct v as [x|items|entries].
  - destruct (first_list values) as [items'|].
    + destruct IH as (pre & post & -> & Hpre).
      exists (JScalar x :: pre), post. split; [done|]. by constructor.
    + by constructor.
  - exists [], values. split; [done|]. constructor.
  - destruct (first_list values) as [items'|].
    + destruct IH as (pre & post & -> & Hpre).
      exists (JDict entries :: pre), post. split; [done|]. by constructor.
    + by constructor.
Qed.

(** X17: on a response with a status in 200..299 and a JSON body, a list
    payload gives one message per item, in order -- a dict item as it is,
    any other item wrapped under the key ["_value"]; a dict payload gives
    the items of its first value that is a list and, when it has none, the
    payload itself as the only message; any other payload gives one
    message that wraps it. *)
Theorem get_messages_items (status_code : Z) (payload : json) :
  (200 ≤ status_code < 300)%Z →
  let wrap := λ item, if is_dict item then item
                      else JDict [(lit "_value", item)] in
  let messages :=
    fetched_messages (get_messages (Response status_code (Some payload))) in
  match payload with
  | JList items => messages = wrap <$> items
  | JDict entries =>
      (∀ pre key items post,
         entries = pre ++ (key, JList items) :: post →
         Forall (λ e, ∀ l, e.2 ≠ JList l) pre →
         messages = wrap <$> items) ∧
      (Forall (λ e, ∀ l, e.2 ≠ JList l) entries → messages = [payload])
  | JScalar v => messages = [JDict [(lit "_value", JScalar v)]]
  end.
Proof.
  intros Hstatus wrap messages.
  assert (Hin : negb ((200 <=? status_code)%Z && (status_code <? 300)%Z)
                = false).
  { apply negb_false_iff, andb_true_iff.
    split; [apply Z.leb_le | apply Z.ltb_lt]; lia. }
  assert (Hnorm : ∀ items, normalize items = wrap <$> items).
  { intros items. unfold normalize. apply list_fmap_ext.
    intros _ item _. by destruct item. }
  unfold messages. simpl. rewrite Hin. simpl. rewrite Hnorm.
  destruct payload as [v|items|entries]; simpl; [done..|].
  pose proof (first_list_spec entries.*2) as Hfirst. split.
  - intros pre key items post -> Hpre.
    rewrite fmap_app, fmap_cons in *. simpl in *.
    destruct (first_list (pre.*2 ++ JList items :: post.*2)) as [items'|].
    + destruct Hfirst as (pre' & post' & Heq & Hpre').
      assert (Hpre2 : Forall (λ v, ∀ l, v ≠ JList l) pre.*2)
        by (by apply Forall_fmap).
      assert (pre' = pre.*2 ∧ items' = items) as [_ ->]; [|done].
      clear -Heq Hpre' Hpre2. revert pre' Heq Hpre'.
      induction Hpre2 as [|v l Hv _ IH]; intros [|v' pre'] Heq Hpre';
        simpl in Heq.
      * by injection Heq as ->.
      * injection Heq as <- _. apply Forall_cons in Hpre' as [Hv' _].
        by destruct (Hv' items).
      * injection Heq as -> _. by destruct (Hv items').
      * injection Heq as <- Heq. apply Forall_cons in Hpre' as [_ Hpre'].
        destruct (IH _ Heq Hpre') as [-> ->]. done.
    + apply Forall_app in Hfirst as [_ Hfirst].
      apply Forall_cons in Hfirst as [Hfirst _]. by destruct (Hfirst items).
  - intros Hnone. destruct (first_list entries.*2) as [items'|]; [|done].
    destruct Hfirst as (pre' & post' & Heq & _).
    assert (Hnone' : Forall (λ v, ∀ l, v ≠ JList l) entries.*2)
      by (by apply Forall_fmap).
    rewrite Heq in Hnone'. apply Forall_app in Hnone' as [_ Hnone'].
    apply Forall_cons in Hnone' as [Hnone' _]. by destruct (Hnone' items').
Qed.

Lemma get_messages_items_witness :
  fetched_messages
    (get_messages
       (Response 200
          (Some (JDict [(lit "total", JScalar (VInt 2));
                        (lit "messages",
                         JList [JDict [(lit "user_name", JScalar (VStr "Alice"))];
                                JScalar (VStr "stray")]);
                        (lit "data", JList [])]))))
  = [JDict [(lit "user_name", JScalar (VStr "Alice"))];
     JDict [(lit "_value", JScalar (VStr "stray"))]].
Proof.
  refine (proj1 (get_messages_items 200
                   (JDict [(lit "total", JScalar (VInt 2));
                           (lit "messages",
                            JList [JDict [(lit "user_name",
                                           JScalar (VStr "Alice"))];
                                   JScalar (VStr "stray")]);
                           (lit "data", JList [])]) _)
            [(lit "total", JScalar (VInt 2))] (lit "messages") _
            [(lit "data", JList [])] eq_refl _).
  - lia.
  - by repeat constructor.
Defined.

(** ** Documents without a usable name *)

(** X18: when no document carries a non-empty member name, no question
    is ever restricted: the candidates are the whole range and the
    resolution is not confident. *)
Theorem nameless_corpus_is_unrestricted (names : list (option str))
    (n_docs : nat) (q_lower : str) (q_tokens : gset str) :
  Forall (λ name, truthy name = false) names →
  resolve_candidates names n_docs q_lower q_tokens = (seq 0 n_docs, false).
Proof.
  intros Hnames.
  assert (Hno : ∀ i n, names !! i = Some (Some n) → n = []).
  { intros i n Hi. eapply Forall_lookup_1 in Hnames; [|done].
    by destruct n. }
  unfold resolve_candidates. rewrite full_match_indices_filter.
  rewrite filter_none.
  2:{ intros i _ Hi%Is_true_true%full_match_at_spec.
      destruct Hi as (n & Hi & Hne & _). by apply Hne, (Hno i). }
  assert (Hm : matches_by_full_name names q_tokens = ∅).
  { apply map_eq. intros n. rewrite lookup_empty, matches_by_full_name_lookup.
    case_bool_decide as Hn; [|done]. destruct Hn as [Hne _].
    destruct (positions_of names n) as [|i l] eqn:Hpos; [done|].
    assert (Hi : i ∈ positions_of names n) by (rewrite Hpos; by left).
    apply elem_of_positions_of in Hi. by apply Hno in Hi. }
  by rewrite Hm, map_to_list_empty.
Qed.

Lemma nameless_corpus_is_unrestricted_witness :
  resolve_candidates [None; Some []; None] 3 (lower "Where is Sam?")
    (words_set ["sam"]) = ([0; 1; 2], false).
Proof.
  apply (nameless_corpus_is_unrestricted [None; Some []; None] 3).
  by repeat constructor.
Defined.

Lemma strip_split_cons_space (c sp : ascii) (s : str) :
  is_space sp = true → sp ≠ c →
  strip <$> split c (sp :: s) = strip <$> split c s.
Proof.
  intros Hsp Hne. simpl. rewrite bool_decide_eq_false_2 by done.
  pose proof (split_nonempty c s).
  destruct (split c s) as [|h t]; [done|].
  by rewrite !fmap_cons, strip_cons_space.
Qed.

(** A [User:] part that trims to nothing leaves the loop of
    [_parse_doc_fields] where it would be without it. *)
Lemma foldl_parse_part_blank_user (parts : list str) t m :
  let '(u, t1, m1) := foldl parse_part (Some [], t, m) parts in
  let '(u', t2, m2) := foldl parse_part (None, t, m) parts in
  u ≫= or_none = u' ≫= or_none ∧ t1 = t2 ∧ m1 = m2.
Proof.
  revert t m. induction parts as [|p parts IH]; intros t m; [done|].
  rewrite !foldl_cons. unfold parse_part at 2 4.
  destruct (startswith "User:" p).
  { by destruct (foldl parse_part _ parts) as [[??]?]. }
  destruct (startswith "Timestamp:" p); [apply IH|].
  destruct (startswith "Message:" p); apply IH.
Qed.

(** X19: a name made of blanks only is lost at build time in a way the
    segment parser does not share.  For the document
    ["User: <blanks> | <rest>"] the label taken at build time is not
    [None] but a text that begins with the bar of the separator, while
    [_parse_doc_fields] takes nothing from the blank segment: it reads
    the document as it reads [<rest>] alone. *)
Theorem blank_name_takes_the_separator (n rest : str) :
  Forall is_space n →
  let doc := lit "User: " ++ n ++ lit " | " ++ rest in
  (∃ junk, _extract_user_name doc = Some ("|"%char :: junk)) ∧
  _parse_doc_fields doc = _parse_doc_fields rest.
Proof.
  intros Hn doc. unfold doc. split.
  { unfold _extract_user_name.
    change (lit "User: " ++ n ++ lit " | " ++ rest)
      with (lit "User:" ++ (" "%char :: n ++ " "%char :: "|"%char
                            :: " "%char :: rest)).
    rewrite startswith_app, drop_app_length. simpl negb. cbv iota.
    assert (Hrest : lstrip (" "%char :: n ++ " "%char :: "|"%char
                            :: " "%char :: rest)
                    = "|"%char :: " "%char :: rest).
    { change (" "%char :: n ++ " "%char :: "|"%char :: " "%char :: rest)
        with ((" "%char :: n) ++ [" "%char] ++ "|"%char :: " "%char :: rest).
      rewrite app_assoc, lstrip_blank_app; [done|].
      apply Forall_app. split; [by constructor|by repeat constructor]. }
    rewrite Hrest. cbv zeta.
    pose proof (up_to_first_find " |" ("|"%char :: " "%char :: rest)) as Hseg.
    set (seg := match find _ _ with Some _ => _ | None => _ end) in Hseg.
    assert (Hname : match find " |" ("|"%char :: " "%char :: rest) with
                    | Some end_idx =>
                        strip (take end_idx ("|"%char :: " "%char :: rest))
                    | None => strip ("|"%char :: " "%char :: rest)
                    end = strip seg).
    { unfold seg. by destruct (find _ _). }
    rewrite Hname.
    assert (Hhead : ∃ seg', seg = "|"%char :: seg').
    { destruct Hseg as [(post & Hs & _)|[-> _]]; [|by eexists].
      destruct seg as [|c seg']; [done|]. injection Hs as <- _. by eexists. }
    destruct Hhead as [seg' ->].
    destruct (rstrip_cons_nonspace "|" seg' eq_refl) as [b' Hb'].
    unfold strip. rewrite Hb'. by exists b'. }
  unfold _parse_doc_fields.
  change (lit "User: " ++ n ++ lit " | " ++ rest)
    with (lit "User: " ++ n ++ " "%char :: "|"%char :: " "%char :: rest).
  rewrite (cons_middle " "%char n), !app_assoc, split_app_sep.
  2:{ rewrite !not_elem_of_app. split_and!.
      - refine (bool_decide_unpack _ _). by vm_compute.
      - intros Hbar. eapply Forall_forall in Hn; [|done]. done.
      - by intros [=]%list_elem_of_singleton. }
  rewrite fmap_cons, foldl_cons, strip_split_cons_space by done.
  rewrite <- !app_assoc, parse_part_user.
  rewrite (strip_blank (n ++ [" "%char])).
  2:{ apply Forall_app. split; [done|by repeat constructor]. }
  pose proof (foldl_parse_part_blank_user (strip <$> split "|" rest) None None)
    as Hfold.
  destruct (foldl parse_part (Some [], _, _) _) as [[u t] m].
  destruct (foldl parse_part (None, _, _) _) as [[u' t'] m'].
  by destruct Hfold as (-> & -> & ->).
Qed.

Lemma blank_name_takes_the_separator_witness :
  let doc : str := "User:    | Timestamp: 2024-01-01 | Message: hi" in
  (∃ junk, _extract_user_name doc = Some ("|"%char :: junk)) ∧
  _parse_doc_fields doc
  = _parse_doc_fields "Timestamp: 2024-01-01 | Message: hi".
Proof.
  apply (blank_name_takes_the_separator
           "  " "Timestamp: 2024-01-01 | Message: hi").
  by repeat constructor.
Defined.

(** The two readers on such documents: the segment parser finds no
    name, or the name of a later [User:] segment. *)
Example blank_name_readers_differ :
  _extract_user_name "User:    | Timestamp: 2024-01-01 | Message: hi"
  = Some (lit "| Timestamp: 2024-01-01") ∧
  (_parse_doc_fields "User:    | Timestamp: 2024-01-01 | Message: hi").1.1
  = None ∧
  _extract_user_name "User:   | User: Bob" = Some (lit "| User: Bob") ∧
  (_parse_doc_fields "User:   | User: Bob").1.1 = Some (lit "Bob").
Proof. by vm_compute. Qed.
